(** * vscode-selfhost-test-provider: the test-run result reconciliation core

    A shallow embedding of [src/vscodeTestProvider.ts]: the diagnostic
    formatter [tryMakeMarkdown], the location resolver [tryDeriveLocation],
    the pending-index builder [getPendingTestMap], the run scanner
    [scanTestOutput] and the tail of the coordinator [runTests].

    Conventions.
    - A JavaScript string is a [string]; every [ascii] stands for one code
      unit, so the development covers strings whose code units are below 256.
    - A JavaScript number that the code only uses as an integer is a [Z].
    - The value classes of the editor API ([Position], [Range], [Location],
      [Uri], [MarkdownString], [TestMessage]) are records of the arguments
      their constructors receive.
    - Callbacks that the host fires (runner events, cancellation, completion
      of an asynchronous location lookup) are inputs of a transition
      function over an explicit state. *)

From Stdlib Require Import ZArith Ascii String List Permutation.
From stdpp Require Import base option list gmap strings fin_maps.
Import ListNotations.
Local Open Scope string_scope.
Local Open Scope list_scope.
Local Open Scope nat_scope.

(** ** Strings as the code uses them *)

Module JsString.

Definition newline : ascii := "010"%char.

(** [s.split('\n')]: always at least one piece. *)
Fixpoint split (s : string) : list string :=
  match s with
  | EmptyString => [EmptyString]
  | String c r =>
      if Ascii.eqb c newline then EmptyString :: split r
      else match split r with
           | h :: t => String c h :: t
           | [] => [String c EmptyString]
           end
  end.

(** [lines.join('\n')]. *)
Fixpoint join (lines : list string) : string :=
  match lines with
  | [] => EmptyString
  | [l] => l
  | l :: rest => l +:+ String newline (join rest)
  end.

(** [s.includes(pat)]. *)
Fixpoint includes (pat s : string) : bool :=
  if String.prefix pat s then true
  else match s with
       | EmptyString => false
       | String _ r => includes pat r
       end.

(** [arr.findIndex(p)], with [None] for the source's [-1]. *)
Fixpoint findIndex {A} (p : A -> bool) (l : list A) : option nat :=
  match l with
  | [] => None
  | x :: r => if p x then Some 0 else S <$> findIndex p r
  end.

(** [arr.splice(start, 1, x)] on an index inside the array. *)
Definition splice1 {A} (start : nat) (x : A) (l : list A) : list A :=
  take start l ++ x :: drop (S start) l.

(** [arr.push(x)]. *)
Definition push {A} (x : A) (l : list A) : list A := l ++ [x].

End JsString.

(** ** Diagnostic formatter *)

(** The formatter returns either the string it was given or a
    [MarkdownString] built from the rewritten lines. *)
Inductive MessageText :=
| PlainText (s : string)
| MarkdownString (value : string).

Definition diff_marker : string := "+ actual".
Definition fence_open : string := "```diff".
Definition fence_close : string := "```".

Definition tryMakeMarkdown (message : string) : MessageText :=
  let lines := JsString.split message in
  match JsString.findIndex (JsString.includes diff_marker) lines with
  | None => PlainText message
  | Some start =>
      let lines := JsString.splice1 start fence_open lines in
      let lines := JsString.push fence_close lines in
      MarkdownString (JsString.join lines)
  end.


(** ** Editor value classes *)

Record Uri := Uri_parse { uri_text : string }.

Record Position := new_Position { pos_line : Z; pos_character : Z }.

Record Range := new_Range { range_start : Position; range_end : Position }.

(** [new Location(uri, rangeOrPosition)] accepts either. *)
Inductive RangeOrPosition :=
| OfRange (r : Range)
| OfPosition (p : Position).

Record Location := new_Location { loc_uri : Uri; loc_range : RangeOrPosition }.

Inductive TestResultState := Passed | Failed | Skipped | Errored.

Definition TestResultState_eqb (a b : TestResultState) : bool :=
  match a, b with
  | Passed, Passed | Failed, Failed | Skipped, Skipped | Errored, Errored => true
  | _, _ => false
  end.

(** ** Test items *)

(** The fields of a case node that this file reads. *)
Record TestCase := {
  fullLabel : string;
  tc_uri : Uri;
  tc_range : Range;
}.

(** A node of the hierarchy, by the two [instanceof] tests of the index
    builder. A file node carries the children it holds now and the children
    that [refresh()] installs from the current file contents. *)
#[local] Set Warnings "-register-all".
Inductive VSCodeTest :=
| CaseNode (c : TestCase)
| FileNode (file : Uri) (children : list VSCodeTest) (on_disk : list VSCodeTest)
| OtherNode (children : list VSCodeTest).

(** [await child.refresh()]: the children are replaced. *)
Definition refresh (t : VSCodeTest) : VSCodeTest :=
  match t with
  | FileNode f _ d => FileNode f d d
  | _ => t
  end.

Definition children_of (t : VSCodeTest) : list VSCodeTest :=
  match t with
  | CaseNode _ => []
  | FileNode _ ch _ => ch
  | OtherNode ch => ch
  end.

(** ** Location resolver *)

(** Outcome of a call into a collaborator that may throw; the payload of
    [Throw] is the [stack] of the error. *)
Inductive Completion (A : Type) :=
| Normal (a : A)
| Throw (stack : string).
Arguments Normal {A} a.
Arguments Throw {A} stack.

(** What [originalPositionFor] returns: each field may be [null]. *)
Record NullableMappedPosition := {
  mp_source : option string;
  mp_line : option Z;
  mp_column : option Z;
}.

(** The argument object of [originalPositionFor]. *)
Record GeneratedPosition := { gp_column : Z; gp_line : Z }.

(** A loaded source map, as the one method used here. The method and
    [Uri.parse] are called outside the [try] block and are taken to return
    normally. *)
Record SourceMapConsumer := {
  originalPositionFor : GeneratedPosition -> NullableMappedPosition;
}.

(** The I/O collaborators of the resolver: the file fetch of the test tree
    module and the constructor of the source-map library. *)
Record Host := {
  getContentsFromFile : Uri -> Completion string;
  new_SourceMapConsumer : string -> string -> Completion SourceMapConsumer;
}.

Module LocationRe.

(** The regular expression [/(file:\/{3}.+):([0-9]+):([0-9]+)/], run as
    a backtracking matcher: each quantifier is greedy, takes one more
    character first and falls back to the continuation [k]. *)

Definition is_digit (c : ascii) : bool :=
  (48 <=? nat_of_ascii c)%nat && (nat_of_ascii c <=? 57)%nat.

Definition is_line_terminator (c : ascii) : bool :=
  Ascii.eqb c "010"%char || Ascii.eqb c "013"%char.

Definition scheme : string := "file:///".

(** [.] matches any code unit but a line terminator. *)
Definition dot (c : ascii) : bool := negb (is_line_terminator c).

(** [C+] followed by [k], for a character class [C]. *)
Fixpoint class_plus {R} (cls : ascii -> bool) (s : string)
    (k : string -> string -> option R) : option R :=
  match s with
  | EmptyString => None
  | String c r =>
      if cls c
      then match class_plus cls r (fun m rest => k (String c m) rest) with
           | Some x => Some x
           | None => k (String c EmptyString) r
           end
      else None
  end.

(** [.+] and [[0-9]+]. *)
Definition dot_plus {R} := @class_plus R dot.
Definition digits_plus {R} := @class_plus R is_digit.

(** The literal [:] followed by [k]. *)
Definition colon {R} (s : string) (k : string -> option R) : option R :=
  match s with
  | String ":" r => k r
  | _ => None
  end.

(** The literal [file:///] followed by [k]. *)
Fixpoint literal {R} (lit s : string) (k : string -> option R) : option R :=
  match lit, s with
  | EmptyString, _ => k s
  | String a lit', String b s' => if Ascii.eqb a b then literal lit' s' k else None
  | String _ _, EmptyString => None
  end.

(** One attempt, anchored at the start of [s]; the captures are groups
    1, 2 and 3. *)
Definition match_here (s : string) : option (string * string * string) :=
  literal scheme s (fun s1 =>
    dot_plus s1 (fun path s2 =>
      colon s2 (fun s3 =>
        digits_plus s3 (fun line s4 =>
          colon s4 (fun s5 =>
            digits_plus s5 (fun col _ =>
              Some (scheme +:+ path, line, col))))))).

(** [re.exec(s)]: the attempt at the leftmost position that succeeds. *)
Fixpoint exec (s : string) : option (string * string * string) :=
  match match_here s with
  | Some m => Some m
  | None =>
      match s with
      | EmptyString => None
      | String _ r => exec r
      end
  end.

End LocationRe.

(** [Number(s)] on a string of decimal digits (exact below 2^53). *)
Definition digit_value (c : ascii) : Z := Z.of_nat (nat_of_ascii c) - 48.

Fixpoint Number_from (acc : Z) (s : string) : Z :=
  match s with
  | EmptyString => acc
  | String c r => Number_from (10 * acc + digit_value c) r
  end.

Definition Number (s : string) : Z := Number_from 0 s.

Definition sourcemap_warning (fileUri e_stack : string) : string :=
  "Error parsing sourcemap for " +:+ fileUri +:+ ": " +:+ e_stack.

(** The [try] block: fetch the [.map] sibling and parse it. *)
Definition load_source_map (h : Host) (fileUri : string) : Completion SourceMapConsumer :=
  let sourceMapUri := fileUri +:+ ".map" in
  match getContentsFromFile h (Uri_parse sourceMapUri) with
  | Throw e => Throw e
  | Normal contents => new_SourceMapConsumer h contents sourceMapUri
  end.

(** [tryDeriveLocation(stack)]: the lines written with [console.warn] and
    the value the returned promise fulfils with ([None] for [undefined]). *)
Definition tryDeriveLocation (h : Host) (stack : string) : list string * option Location :=
  match LocationRe.exec stack with
  | None => ([], None)
  | Some (fileUri, line, col) =>
      match load_source_map h fileUri with
      | Throw e => ([sourcemap_warning fileUri e], None)
      | Normal sourceMap =>
          let position :=
            originalPositionFor sourceMap
              {| gp_column := Number col - 1; gp_line := Number line |} in
          match mp_line position, mp_column position, mp_source position with
          | Some pline, Some pcolumn, Some psource =>
              ([], Some (new_Location (Uri_parse psource)
                           (OfPosition (new_Position (pline - 1) pcolumn))))
          | _, _, _ => ([], None)
          end
      end
  end.

(** ** Runner events *)

(** The values that [expected] and [actual] of a failure carry, as far as
    [String(...)] distinguishes them. *)
Inductive JsValue :=
| JsUndefined
| JsNull
| JsBoolean (b : bool)
| JsText (s : string).

(** [String(v)]. *)
Definition JsValue_String (v : JsValue) : string :=
  match v with
  | JsUndefined => "undefined"
  | JsNull => "null"
  | JsBoolean true => "true"
  | JsBoolean false => "false"
  | JsText s => s
  end.

Record PassInfo := {
  pass_fullTitle : string;
  pass_duration : Z;
}.

Record FailInfo := {
  err : string;
  stack : option string;
  duration : Z;
  expected : JsValue;
  actual : JsValue;
  fullTitle : string;
}.

Inductive MochaEventTuple :=
| MochaStart
| MochaPass (info : PassInfo)
| MochaFail (info : FailInfo)
| MochaEnd.

(** [stack || err]: an absent or empty stack falls through to [err]. *)
Definition stack_or_err (info : FailInfo) : string :=
  match stack info with
  | Some (String c r) => String c r
  | _ => err info
  end.

(** ** What the scanner writes *)

Record OutputChannel := {
  lines : list string;
  show_calls : nat;
}.

Definition appendLine (line : string) (ch : OutputChannel) : OutputChannel :=
  {| lines := lines ch ++ [line]; show_calls := show_calls ch |}.

Definition show (ch : OutputChannel) : OutputChannel :=
  {| lines := lines ch; show_calls := S (show_calls ch) |}.

Record TestMessage := {
  message : MessageText;
  location : option Location;
  actualOutput : option string;
  expectedOutput : option string;
}.

Definition new_TestMessage (m : MessageText) : TestMessage :=
  {| message := m; location := None; actualOutput := None; expectedOutput := None |}.

(** The three assignments to a message: [m.location = l] and so on. *)
Definition set_location (l : Location) (m : TestMessage) : TestMessage :=
  {| message := message m; location := Some l;
     actualOutput := actualOutput m; expectedOutput := expectedOutput m |}.

Definition set_actualOutput (s : string) (m : TestMessage) : TestMessage :=
  {| message := message m; location := location m;
     actualOutput := Some s; expectedOutput := expectedOutput m |}.

Definition set_expectedOutput (s : string) (m : TestMessage) : TestMessage :=
  {| message := message m; location := location m;
     actualOutput := actualOutput m; expectedOutput := Some s |}.

(** The calls made on the run request, in order. *)
Record TestRunOptions := {
  setState_calls : list (TestCase * TestResultState * Z);
  appendMessage_calls : list (TestCase * TestMessage);
}.

(** A run request on which nothing has been called yet. *)
Definition new_TestRunOptions : TestRunOptions :=
  {| setState_calls := []; appendMessage_calls := [] |}.

Definition setState (tcase : TestCase) (s : TestResultState) (d : Z)
    (req : TestRunOptions) : TestRunOptions :=
  {| setState_calls := setState_calls req ++ [(tcase, s, d)];
     appendMessage_calls := appendMessage_calls req |}.

Definition appendMessage (tcase : TestCase) (m : TestMessage)
    (req : TestRunOptions) : TestRunOptions :=
  {| setState_calls := setState_calls req;
     appendMessage_calls := appendMessage_calls req ++ [(tcase, m)] |}.

(** A failure whose location lookup has been started and whose [then]
    callback has not run yet, with what the callback closes over. *)
Record InFlight := {
  if_tcase : TestCase;
  if_info : FailInfo;
  if_testFirstLine : Location;
}.

(** ** Run scanner *)

Record Scan := {
  outputChannel : OutputChannel;
  req : TestRunOptions;
  tests : gmap string TestCase;
  (** calls of [scanner.dispose()] *)
  dispose_calls : nat;
  (** the four scanner and cancellation handlers are registered *)
  subscribed : bool;
  (** the value the returned promise is settled with *)
  settled : option TestResultState;
  inflight : list InFlight;
  (** lines written with [console.warn] *)
  console : list string;
}.

Definition log (line : string) (st : Scan) : Scan :=
  {| outputChannel := appendLine line (outputChannel st); req := req st;
     tests := tests st; dispose_calls := dispose_calls st;
     subscribed := subscribed st; settled := settled st;
     inflight := inflight st; console := console st |}.

Definition with_req (r : TestRunOptions) (st : Scan) : Scan :=
  {| outputChannel := outputChannel st; req := r;
     tests := tests st; dispose_calls := dispose_calls st;
     subscribed := subscribed st; settled := settled st;
     inflight := inflight st; console := console st |}.

Definition with_tests (m : gmap string TestCase) (st : Scan) : Scan :=
  {| outputChannel := outputChannel st; req := req st;
     tests := m; dispose_calls := dispose_calls st;
     subscribed := subscribed st; settled := settled st;
     inflight := inflight st; console := console st |}.

Definition with_inflight (l : list InFlight) (st : Scan) : Scan :=
  {| outputChannel := outputChannel st; req := req st;
     tests := tests st; dispose_calls := dispose_calls st;
     subscribed := subscribed st; settled := settled st;
     inflight := l; console := console st |}.

Definition warn (ws : list string) (st : Scan) : Scan :=
  {| outputChannel := outputChannel st; req := req st;
     tests := tests st; dispose_calls := dispose_calls st;
     subscribed := subscribed st; settled := settled st;
     inflight := inflight st; console := console st ++ ws |}.

(** [resolve(v)] of the promise, together with the [finally] callback
    chained on it: the first call settles the promise and disposes the
    scanner, a later call does nothing. *)
Definition resolve (v : TestResultState) (st : Scan) : Scan :=
  match settled st with
  | Some _ => st
  | None =>
      {| outputChannel := outputChannel st; req := req st;
         tests := tests st; dispose_calls := S (dispose_calls st);
         subscribed := subscribed st; settled := Some v;
         inflight := inflight st; console := console st |}
  end.

Definition pass_marker (title : string) : string := " √ " +:+ title.
Definition fail_marker (id : string) : string := " x " +:+ id.

(** The fallback location of a failure: from the start of the declared
    range to column 100 of the same line. *)
Definition testFirstLine (tcase : TestCase) : Location :=
  new_Location (tc_uri tcase)
    (OfRange (new_Range (range_start (tc_range tcase))
                (new_Position (pos_line (range_start (tc_range tcase))) 100))).

(** The [onMochaEvent] handler. *)
Definition onMochaEvent (evt : MochaEventTuple) (st : Scan) : Scan :=
  match evt with
  | MochaStart => st
  | MochaPass info =>
      let title := pass_fullTitle info in
      let tcase := tests st !! title in
      let st := log (pass_marker title) st in
      match tcase with
      | Some tcase =>
          let st := with_req (setState tcase Passed (pass_duration info) (req st)) st in
          with_tests (delete title (tests st)) st
      | None => st
      end
  | MochaFail info =>
      let id := fullTitle info in
      let tcase := tests st !! id in
      let st := log (fail_marker id) st in
      match tcase with
      | None => st
      | Some tcase =>
          let st := with_tests (delete id (tests st)) st in
          with_inflight
            (inflight st ++
               [{| if_tcase := tcase; if_info := info;
                   if_testFirstLine := testFirstLine tcase |}]) st
      end
  | MochaEnd => resolve Skipped st
  end.

(** The [then] callback of a failure, run with the value [location] that
    the lookup fulfilled with. *)
Definition onLocation (task : InFlight) (location : option Location) (st : Scan) : Scan :=
  let info := if_info task in
  let tcase := if_tcase task in
  let msg := new_TestMessage (tryMakeMarkdown (err info)) in
  let msg := set_location (default (if_testFirstLine task) location) msg in
  let msg := set_actualOutput (JsValue_String (actual info)) msg in
  let msg := set_expectedOutput (JsValue_String (expected info)) msg in
  let st := with_req (appendMessage tcase msg (req st)) st in
  let st := with_req (setState tcase Failed (duration info) (req st)) st in
  log (stack_or_err info) st.

(** What the host can do to a scan in progress. *)
Inductive Input :=
| CancellationRequested
| RunnerError (err : string)
| OtherOutput (str : string)
| Mocha (evt : MochaEventTuple)
| LocationDerived (k : nat).

(** One callback. A handler runs only if it was registered; the [k]-th
    pending lookup completes by running [tryDeriveLocation] to its end and
    then the [then] callback. *)
Definition deliver (h : Host) (st : Scan) (i : Input) : Scan :=
  match i with
  | CancellationRequested =>
      if subscribed st then resolve Skipped st else st
  | RunnerError e =>
      if subscribed st then resolve Errored (log e st) else st
  | OtherOutput str =>
      if subscribed st then log str st else st
  | Mocha evt =>
      if subscribed st then onMochaEvent evt st else st
  | LocationDerived k =>
      match inflight st !! k with
      | None => st
      | Some task =>
          let '(warnings, location) := tryDeriveLocation h (stack_or_err (if_info task)) in
          let st := with_inflight (delete k (inflight st)) st in
          onLocation task location (warn warnings st)
      end
  end.

Definition deliver_all (h : Host) (st : Scan) (inputs : list Input) : Scan :=
  fold_left (deliver h) inputs st.

(** [scanTestOutput] up to its [return]: either the early exit on a
    cancellation that is already requested, or the promise with its
    handlers registered. *)
Definition scanTestOutput (outputChannel : OutputChannel) (req : TestRunOptions)
    (tests : gmap string TestCase) (isCancellationRequested : bool) : Scan :=
  if isCancellationRequested then
    {| outputChannel := outputChannel; req := req; tests := tests;
       dispose_calls := 1; subscribed := false; settled := Some Skipped;
       inflight := []; console := [] |}
  else
    {| outputChannel := outputChannel; req := req; tests := tests;
       dispose_calls := 0; subscribed := true; settled := None;
       inflight := []; console := [] |}.

(** ** Pending-index builder *)

(** The work list of [getPendingTestMap] with the map being built, and
    three logs: the nodes the [for] loop has handled, the file nodes
    refreshed and the cases handed to [titleMap.set], each in order. The
    head of [queue] is the batch that [queue.pop()] returns; [queue.push]
    adds a head. *)
Record Builder := {
  queue : list (list VSCodeTest);
  titleMap : gmap string TestCase;
  visited : list VSCodeTest;
  refreshed : list VSCodeTest;
  set_calls : list TestCase;
}.

(** The body of the [for] loop for one [child]. *)
Definition visit (b : Builder) (child : VSCodeTest) : Builder :=
  match child with
  | FileNode _ _ _ =>
      let child' := refresh child in
      {| queue := children_of child' :: queue b; titleMap := titleMap b;
         visited := visited b ++ [child];
         refreshed := refreshed b ++ [child]; set_calls := set_calls b |}
  | CaseNode c =>
      {| queue := queue b; titleMap := <[fullLabel c := c]> (titleMap b);
         visited := visited b ++ [child];
         refreshed := refreshed b; set_calls := set_calls b ++ [c] |}
  | OtherNode ch =>
      {| queue := ch :: queue b; titleMap := titleMap b;
         visited := visited b ++ [child];
         refreshed := refreshed b; set_calls := set_calls b |}
  end.

(** [queue.pop()]. *)
Definition pop (b : Builder) : Builder :=
  {| queue := tail (queue b); titleMap := titleMap b; visited := visited b;
     refreshed := refreshed b; set_calls := set_calls b |}.

(** The [while (queue.length)] loop, one iteration per unit of fuel. *)
Fixpoint drain (fuel : nat) (b : Builder) : option Builder :=
  match queue b with
  | [] => Some b
  | batch :: _ =>
      match fuel with
      | O => None
      | S fuel' => drain fuel' (fold_left visit batch (pop b))
      end
  end.

Definition builder_init (tests : list VSCodeTest) : Builder :=
  {| queue := [tests]; titleMap := ∅; visited := [];
     refreshed := []; set_calls := [] |}.

(** Nodes below a node once every file below it is refreshed, counted so
    that a batch of children weighs less than its parent. *)
Fixpoint weight (t : VSCodeTest) : nat :=
  match t with
  | CaseNode _ => 1
  | FileNode _ _ d => 2 + list_sum (map weight d)
  | OtherNode ch => 2 + list_sum (map weight ch)
  end.

Definition batch_weight (batch : list VSCodeTest) : nat :=
  1 + list_sum (map weight batch).

Definition queue_weight (q : list (list VSCodeTest)) : nat :=
  list_sum (map batch_weight q).

(** [getPendingTestMap(tests)], run with as many iterations as the
    hierarchy can need; [getPendingTestMap_trace] keeps the logs. *)
Definition getPendingTestMap_trace (tests : list VSCodeTest) : option Builder :=
  drain (queue_weight [tests]) (builder_init tests).

Definition getPendingTestMap (tests : list VSCodeTest) : option (gmap string TestCase) :=
  titleMap <$> getPendingTestMap_trace tests.

(** ** Run coordinator *)

(** The tail of the queued callback of [runTests]: the log is shown
    unless the scan settled with [Skipped]. *)
Definition after_scan (outcome : TestResultState) (output : OutputChannel) : OutputChannel :=
  if negb (TestResultState_eqb outcome Skipped) then show output else output.

Definition start_banner (now : string) : list string :=
  [""; "Starting test run at " +:+ now; ""].

(** [runTests] from the index on: [pending] is built, the banner is
    written, the scan consumes [inputs], and once the scan has settled the
    log is shown or not. [None] when the index builder runs out of fuel. *)
Definition runTests (h : Host) (now : string) (output : OutputChannel)
    (req_tests : list VSCodeTest) (isCancellationRequested : bool)
    (inputs : list Input) : option Scan :=
  pending ← getPendingTestMap req_tests;
  let output := fold_left (fun ch l => appendLine l ch) (start_banner now) output in
  let st :=
    deliver_all h
      (scanTestOutput output new_TestRunOptions pending isCancellationRequested)
      inputs in
  Some match settled st with
       | Some outcome =>
           {| outputChannel := after_scan outcome (outputChannel st); req := req st;
              tests := tests st; dispose_calls := dispose_calls st;
              subscribed := subscribed st; settled := settled st;
              inflight := inflight st; console := console st |}
       | None => st
       end.

(** ** The provider across runs *)

(** The chain of [parent] links from an item, the item included: it is a
    [TestRoot], or it has no parent, or it has one. *)
Inductive Lineage :=
| TestRootItem (workspaceFolder : string)
| Orphan
| ChildOf (parent : Lineage).

Definition TypeError : string := "TypeError".

(** The [while] loop at the head of [runTests]; following [parent] from
    [undefined] throws. *)
Fixpoint root_above (item : Lineage) : Completion string :=
  match item with
  | TestRootItem folder => Normal folder
  | Orphan => Throw TypeError
  | ChildOf parent => root_above parent
  end.

(** [req.tests[0]] and the loop. *)
Definition root_of_request (items : list Lineage) : Completion string :=
  match items with
  | [] => Throw TypeError
  | first :: _ => root_above first
  end.

(** The promise held in [this.queue]. *)
Inductive QueueState :=
| QueueFulfilled
| QueueRejected (e : string)
| QueuePending.

(** The two fields of the provider, and the number of calls of
    [window.createOutputChannel]. *)
Record Provider := {
  p_outputChannel : option OutputChannel;
  p_queue : QueueState;
  createOutputChannel_calls : nat;
}.

Definition new_Provider : Provider :=
  {| p_outputChannel := None; p_queue := QueueFulfilled;
     createOutputChannel_calls := 0 |}.

(** [getOutputChannel()]: the channel, created on first use. *)
Definition getOutputChannel (p : Provider) : OutputChannel * Provider :=
  match p_outputChannel p with
  | Some ch => (ch, p)
  | None =>
      let ch := {| lines := []; show_calls := 0 |} in
      (ch, {| p_outputChannel := Some ch; p_queue := p_queue p;
              createOutputChannel_calls := S (createOutputChannel_calls p) |})
  end.

(** A call of [runTests]: the requested items with their parent chains,
    the cancellation flag on entry, what launching the runner for a
    workspace folder gives (the inputs that reach the scan, or an
    error), and the time of the banner. *)
Record Request := {
  r_tests : list (Lineage * VSCodeTest);
  r_cancelled : bool;
  r_launch : string -> Completion (list Input);
  r_now : string;
}.

(** The promise that [runTests] returns. *)
Inductive RunPromise :=
| RunRejected (e : string)
| RunPending
| RunFulfilled (st : Scan).

(** The three lines written at the start of the queued callback. *)
Definition write_banner (now : string) (output : OutputChannel) : OutputChannel :=
  fold_left (fun ch l => appendLine l ch) (start_banner now) output.

Definition with_outputChannel (ch : OutputChannel) (st : Scan) : Scan :=
  {| outputChannel := ch; req := req st;
     tests := tests st; dispose_calls := dispose_calls st;
     subscribed := subscribed st; settled := settled st;
     inflight := inflight st; console := console st |}.

(** [runTests] as a whole, for requests handled one after the other. The
    root loop and the index come first. The rest is the callback chained
    on [this.queue], which runs only if the queue is fulfilled: it takes
    the channel, writes the banner, launches the runner, scans, and shows
    the log unless the outcome is [Skipped]. A fulfilled promise is given
    with the scan as it ended. *)
Definition submit (h : Host) (p : Provider) (r : Request) : Provider * RunPromise :=
  match root_of_request (r_tests r).*1 with
  | Throw e => (p, RunRejected e)
  | Normal folder =>
      match getPendingTestMap (r_tests r).*2 with
      | None => (p, RunPending)
      | Some pending =>
          match p_queue p with
          | QueueRejected e => (p, RunRejected e)
          | QueuePending => (p, RunPending)
          | QueueFulfilled =>
              let '(output, p) := getOutputChannel p in
              let output := write_banner (r_now r) output in
              match r_launch r folder with
              | Throw e =>
                  ({| p_outputChannel := Some output;
                      p_queue := QueueRejected e;
                      createOutputChannel_calls := createOutputChannel_calls p |},
                   RunRejected e)
              | Normal inputs =>
                  let st :=
                    deliver_all h
                      (scanTestOutput output new_TestRunOptions pending (r_cancelled r))
                      inputs in
                  match settled st with
                  | Some outcome =>
                      let output := after_scan outcome (outputChannel st) in
                      ({| p_outputChannel := Some output;
                          p_queue := QueueFulfilled;
                          createOutputChannel_calls := createOutputChannel_calls p |},
                       RunFulfilled (with_outputChannel output st))
                  | None =>
                      ({| p_outputChannel := Some (outputChannel st);
                          p_queue := QueuePending;
                          createOutputChannel_calls := createOutputChannel_calls p |},
                       RunPending)
                  end
              end
          end
      end
  end.

(** Requests in the order in which they are chained. *)
Fixpoint submit_all (h : Host) (p : Provider) (rs : list Request)
    : Provider * list RunPromise :=
  match rs with
  | [] => (p, [])
  | r :: rs =>
      let '(p, res) := submit h p r in
      let '(p, ress) := submit_all h p rs in
      (p, res :: ress)
  end.

(** * Sample run *)

Module Sample.

Definition caseA : TestCase :=
  {| fullLabel := "suite > caseA";
     tc_uri := Uri_parse "file:///src/suite.test.ts";
     tc_range := new_Range (new_Position 3 2) (new_Position 5 4) |}.

Definition caseB : TestCase :=
  {| fullLabel := "suite > caseB";
     tc_uri := Uri_parse "file:///src/suite.test.ts";
     tc_range := new_Range (new_Position 7 2) (new_Position 12 4) |}.

(** An older case with the title of [caseB]. *)
Definition caseB_stale : TestCase :=
  {| fullLabel := "suite > caseB";
     tc_uri := Uri_parse "file:///src/old.test.ts";
     tc_range := new_Range (new_Position 1 0) (new_Position 2 0) |}.

(** A root with one file; the file has not been parsed yet and its
    refresh finds a case and a suite with a second case. *)
Definition hierarchy : list VSCodeTest :=
  [OtherNode
     [FileNode (Uri_parse "file:///src/suite.test.ts") []
        [CaseNode caseA; OtherNode [CaseNode caseB]]]].

Definition hierarchy_with_duplicate : list VSCodeTest :=
  [CaseNode caseB_stale; CaseNode caseA; CaseNode caseB].

Definition pending : gmap string TestCase :=
  <[fullLabel caseA := caseA]> (<[fullLabel caseB := caseB]> ∅).

(** A host where only [file:///out/a.js.map] exists; the map it holds
    sends every position ten lines down in [file:///src/a.ts]. *)
Definition host : Host :=
  {| getContentsFromFile := λ u,
       if String.eqb (uri_text u) "file:///out/a.js.map"
       then Normal "{}" else Throw "ENOENT";
     new_SourceMapConsumer := λ _ _,
       Normal {| originalPositionFor := λ gp,
                   {| mp_source := Some "file:///src/a.ts";
                      mp_line := Some (gp_line gp + 10)%Z;
                      mp_column := Some (gp_column gp) |} |} |}.

Definition channel : OutputChannel := {| lines := []; show_calls := 0 |}.

Definition failB : FailInfo :=
  {| err := "AssertionError" +:+ String JsString.newline
              ("+ actual: 1" +:+ String JsString.newline "- expected: 2");
     stack := Some "file:///a.js:5:3";
     duration := 7;
     expected := JsText "2";
     actual := JsText "1";
     fullTitle := "suite > caseB" |}.

Definition passA : PassInfo :=
  {| pass_fullTitle := "suite > caseA"; pass_duration := 12 |}.

(** Scenario A of the specification, with the completion of the lookup
    for the failure last. *)
Definition scenarioA : list Input :=
  [Mocha MochaStart; Mocha (MochaPass passA); Mocha (MochaFail failB);
   Mocha MochaEnd; LocationDerived 0].

Definition idle : Scan := scanTestOutput channel new_TestRunOptions pending false.

(** Requests: one whose runner starts and delivers scenario A, one whose
    launch fails, one with nothing requested. *)
Definition lineage : Lineage := ChildOf (ChildOf (TestRootItem "/workspace")).

Definition request_ok : Request :=
  {| r_tests := [(lineage, CaseNode caseA); (Orphan, CaseNode caseB)];
     r_cancelled := false;
     r_launch := λ _, Normal scenarioA;
     r_now := "10:00" |}.

Definition request_launch_fails : Request :=
  {| r_tests := [(lineage, CaseNode caseA)];
     r_cancelled := false;
     r_launch := λ folder, Throw ("cannot start in " +:+ folder);
     r_now := "10:05" |}.

Definition request_empty : Request :=
  {| r_tests := []; r_cancelled := false;
     r_launch := λ _, Normal []; r_now := "10:10" |}.

(** A second failure, of [caseA], and a scan with both failures waiting
    for their locations. *)
Definition failA : FailInfo :=
  {| err := "boom"; stack := None; duration := 3;
     expected := JsUndefined; actual := JsUndefined;
     fullTitle := "suite > caseA" |}.

Definition two_in_flight : Scan :=
  deliver_all host idle [Mocha (MochaFail failB); Mocha (MochaFail failA)].

Definition taskA : InFlight :=
  {| if_tcase := caseA; if_info := failA; if_testFirstLine := testFirstLine caseA |}.

Definition taskB : InFlight :=
  {| if_tcase := caseB; if_info := failB; if_testFirstLine := testFirstLine caseB |}.

(** The sample hierarchy with children left over in the file node. *)
Definition hierarchy_with_stale_children : list VSCodeTest :=
  [OtherNode
     [FileNode (Uri_parse "file:///src/suite.test.ts") [CaseNode caseB_stale]
        [CaseNode caseA; OtherNode [CaseNode caseB]]]].

End Sample.

(** * Specification vocabulary *)

(** [s] contains [pat] as a substring. *)
Definition contains (pat s : string) : Prop :=
  ∃ a b, s = a +:+ pat +:+ b.

Fixpoint string_forall (p : ascii → bool) (s : string) : bool :=
  match s with
  | EmptyString => true
  | String c r => p c && string_forall p r
  end.

(** A non-empty string of characters of one class. *)
Definition run_of (cls : ascii → bool) (m : string) : Prop :=
  m ≠ "" ∧ string_forall cls m = true.

(** [s] is an occurrence of [<file-URI>:<line>:<column>] followed by
    anything. *)
Definition pattern_at (s fileUri line col : string) : Prop :=
  ∃ path post,
    fileUri = LocationRe.scheme +:+ path ∧
    s = fileUri +:+ ":" +:+ line +:+ ":" +:+ col +:+ post ∧
    run_of LocationRe.dot path ∧
    run_of LocationRe.is_digit line ∧
    run_of LocationRe.is_digit col.

(** The pattern occurs somewhere in [s]. *)
Definition has_location_pattern (s : string) : Prop :=
  ∃ pre rest fileUri line col, s = pre +:+ rest ∧ pattern_at rest fileUri line col.

(** Equality of the values that identify a case is decidable. *)
#[global] Instance Uri_eq_dec : EqDecision Uri.
Proof. solve_decision. Defined.
#[global] Instance Position_eq_dec : EqDecision Position.
Proof. solve_decision. Defined.
#[global] Instance Range_eq_dec : EqDecision Range.
Proof. solve_decision. Defined.
#[global] Instance TestCase_eq_dec : EqDecision TestCase.
Proof. solve_decision. Defined.

(** The title a pass or fail event carries. *)
Definition event_title (evt : MochaEventTuple) : option string :=
  match evt with
  | MochaPass info => Some (pass_fullTitle info)
  | MochaFail info => Some (fullTitle info)
  | _ => None
  end.

(** The log line a pass or fail event writes. *)
Definition event_marker (evt : MochaEventTuple) : option string :=
  match evt with
  | MochaPass info => Some (pass_marker (pass_fullTitle info))
  | MochaFail info => Some (fail_marker (fullTitle info))
  | _ => None
  end.

(** The value an input settles an unsettled scan with, if it is one of the
    three that call [resolve]. *)
Definition settles_with (i : Input) : option TestResultState :=
  match i with
  | CancellationRequested => Some Skipped
  | RunnerError _ => Some Errored
  | Mocha MochaEnd => Some Skipped
  | _ => None
  end.

(** How many times [setState] was called on a case. *)
Definition setState_count (c : TestCase) (st : Scan) : nat :=
  length (filter (λ call : TestCase * TestResultState * Z, call.1.1 = c)
            (setState_calls (req st))).

(** How many failures of a case wait for their location. *)
Definition inflight_count (c : TestCase) (st : Scan) : nat :=
  length (filter (λ task, if_tcase task = c) (inflight st)).

(** Whether a case is still in the pending index, under its own title. *)
Definition pending_count (c : TestCase) (st : Scan) : nat :=
  if decide (tests st !! fullLabel c = Some c) then 1 else 0.

(** Every entry of an index is filed under the title of its case. *)
Definition keyed_by_label (idx : gmap string TestCase) : Prop :=
  ∀ title c, idx !! title = Some c → fullLabel c = title.

(** What a scan preserves: entries stay under their own title, and for
    each case the calls of [setState], the lookups in flight and the entry
    in the index add up to at most one. *)
Definition at_most_once (st : Scan) : Prop :=
  keyed_by_label (tests st) ∧
  ∀ c, setState_count c st + inflight_count c st + pending_count c st ≤ 1.

(** The children the traversal pushes for a node: those that the refresh
    installs for a file node, none for a case. *)
Definition expanded_children (t : VSCodeTest) : list VSCodeTest :=
  children_of (refresh t).

(** A node and everything the traversal reaches below it. *)
Fixpoint nodes_below (t : VSCodeTest) : list VSCodeTest :=
  t :: match t with
       | CaseNode _ => []
       | FileNode _ _ d => concat (map nodes_below d)
       | OtherNode ch => concat (map nodes_below ch)
       end.

(** The cases and the file nodes among a list of nodes, in order. *)
Definition direct_cases (l : list VSCodeTest) : list TestCase :=
  omap (λ t, match t with CaseNode c => Some c | _ => None end) l.

Definition direct_files (l : list VSCodeTest) : list VSCodeTest :=
  omap (λ t, match t with FileNode _ _ _ => Some t | _ => None end) l.

(** The batches pushed while a batch is iterated, oldest first. *)
Definition pushes (batch : list VSCodeTest) : list (list VSCodeTest) :=
  omap (λ t, match t with CaseNode _ => None | _ => Some (expanded_children t) end) batch.

(** [titleMap.set] for a sequence of cases, in order. *)
Definition set_all (calls : list TestCase) (m : gmap string TestCase) : gmap string TestCase :=
  fold_left (λ m c, <[fullLabel c := c]> m) calls m.

(** The last case with a given title in a sequence of [titleMap.set]
    calls. *)
Definition last_with_title (title : string) (calls : list TestCase) : option TestCase :=
  last (filter (λ c, fullLabel c = title) calls).

(** Every lookup in flight carries the fallback location of its own
    case. *)
Definition fallbacks_recorded (st : Scan) : Prop :=
  ∀ task, task ∈ inflight st → if_testFirstLine task = testFirstLine (if_tcase task).

(** An input is a pass or fail event with the given title. *)
Definition mentions (title : string) (i : Input) : bool :=
  match i with
  | Mocha evt => bool_decide (event_title evt = Some title)
  | _ => false
  end.

(** Where a case stands in a scan: states set, lookups in flight and the
    entry in the index, added up. *)
Definition total_count (c : TestCase) (st : Scan) : nat :=
  setState_count c st + inflight_count c st + pending_count c st.

(** The cases that [setState] was called on with a given state, in call
    order. *)
Definition cases_set_to (s : TestResultState) (r : TestRunOptions) : list TestCase :=
  omap (λ call : TestCase * TestResultState * Z,
          if TestResultState_eqb call.1.2 s then Some call.1.1 else None)
    (setState_calls r).

(** How far a run may have got with a case of its index: no call is made
    on any other case, and cases only get [Passed] or [Failed]. *)
Definition calls_within (pending : gmap string TestCase) (st : Scan) : Prop :=
  tests st ⊆ pending
  ∧ (∀ task, task ∈ inflight st → pending !! fullLabel (if_tcase task) = Some (if_tcase task))
  ∧ (∀ c s d, (c, s, d) ∈ setState_calls (req st) →
       pending !! fullLabel c = Some c ∧ (s = Passed ∨ s = Failed))
  ∧ (∀ c m, (c, m) ∈ appendMessage_calls (req st) → pending !! fullLabel c = Some c).

(** Every message comes with a [Failed] state for the same case, in the
    same order, and has all three fields assigned. *)
Definition messages_match_failures (st : Scan) : Prop :=
  (appendMessage_calls (req st)).*1 = cases_set_to Failed (req st)
  ∧ ∀ c m, (c, m) ∈ appendMessage_calls (req st) →
      is_Some (location m) ∧ is_Some (actualOutput m) ∧ is_Some (expectedOutput m).

(** A string without a line break. *)
Definition no_newline (l : string) : Prop :=
  string_forall (λ c, negb (Ascii.eqb c JsString.newline)) l = true.

(** The queries that a stack trace can lead to: a line that is not
    negative and a column from -1 up. *)
Definition in_query_range (gp : GeneratedPosition) : bool :=
  (0 <=? gp_line gp)%Z && (-1 <=? gp_column gp)%Z.

(** A source map that answers only queries in that range, and a host
    whose source maps are all of this kind. *)
Definition restrict_map (sm : SourceMapConsumer) : SourceMapConsumer :=
  {| originalPositionFor := λ gp,
       if in_query_range gp then originalPositionFor sm gp
       else {| mp_source := None; mp_line := None; mp_column := None |} |}.

Definition restrict_host (h : Host) : Host :=
  {| getContentsFromFile := getContentsFromFile h;
     new_SourceMapConsumer := λ contents uri,
       match new_SourceMapConsumer h contents uri with
       | Normal sm => Normal (restrict_map sm)
       | Throw e => Throw e
       end |}.

(** The order in which the builder handles what lies below a node: the
    children that are expanded, then what lies below them, the last child
    first, because the batch pushed last is popped first. *)
Fixpoint below (t : VSCodeTest) : list VSCodeTest :=
  match t with
  | CaseNode _ => []
  | FileNode _ _ d => d ++ concat (rev (map below d))
  | OtherNode ch => ch ++ concat (rev (map below ch))
  end.

(** The order in which the builder handles a batch and all below it. *)
Definition traversal (batch : list VSCodeTest) : list VSCodeTest :=
  batch ++ concat (rev (map below batch)).

(** A hierarchy without the children that file nodes held before their
    refresh. *)
Fixpoint forget_stale (t : VSCodeTest) : VSCodeTest :=
  match t with
  | CaseNode c => CaseNode c
  | FileNode f _ d => FileNode f [] (map forget_stale d)
  | OtherNode ch => OtherNode (map forget_stale ch)
  end.

(** The lines of the channel of a provider, none before the channel
    exists. *)
Definition provider_lines (p : Provider) : list string :=
  from_option lines [] (p_outputChannel p).

(** The channel exists exactly when it has been created, once. *)
Definition one_channel (p : Provider) : Prop :=
  createOutputChannel_calls p = match p_outputChannel p with Some _ => 1 | None => 0 end.

Definition is_fulfilled (res : RunPromise) : bool :=
  match res with RunFulfilled _ => true | _ => false end.

(** A line of a text: a stretch without a line break that starts at the
    start of the text or right after a line break, and ends at the end of
    the text or right before a line break. *)
Definition line_break : string := String "010" "".

Definition starts_a_line (before : string) : Prop :=
  before = "" ∨ ∃ b, before = b +:+ line_break.

Definition ends_a_line (after : string) : Prop :=
  after = "" ∨ ∃ a, after = line_break +:+ a.

Definition within_a_line (l : string) : Prop :=
  string_forall (λ c, negb (Ascii.eqb c "010")) l = true.

Definition line_of (m l : string) : Prop :=
  ∃ before after,
    m = before +:+ l +:+ after ∧ within_a_line l
    ∧ starts_a_line before ∧ ends_a_line after.

(** What precedes and what follows a line in the text made of lines. *)
Definition lead (pre : list string) : string :=
  match pre with
  | [] => ""
  | _ => JsString.join pre +:+ line_break
  end.

Definition trail (post : list string) : string :=
  match post with
  | [] => ""
  | _ => line_break +:+ JsString.join post
  end.

(** The decimal digits and the number that a string of them denotes, the
    first digit weighing most. *)
Fixpoint place_in (c : ascii) (s : string) : option nat :=
  match s with
  | EmptyString => None
  | String d r => if Ascii.eqb c d then Some 0 else S <$> place_in c r
  end.

Definition digit_of (c : ascii) : option Z := Z.of_nat <$> place_in c "0123456789".

Fixpoint decimal (s : string) : Z :=
  match s with
  | EmptyString => 0
  | String c r => default 0 (digit_of c) * 10 ^ Z.of_nat (String.length r) + decimal r
  end%Z.

Definition decimal_digits (s : string) : Prop :=
  s ≠ "" ∧ string_forall (λ c, if digit_of c is Some _ then true else false) s = true.

(** A character other than line feed and carriage return. *)
Definition not_line_end (c : ascii) : bool :=
  negb (Ascii.eqb c "010") && negb (Ascii.eqb c "013").

(** [rest] starts with [<file-URI>:<line>:<column>], the file URI being
    [file:///] and a path of one or more characters on one line, line and
    column being decimal numbers. *)
Definition location_occurrence (rest fileUri line col : string) : Prop :=
  ∃ path post,
    fileUri = "file:///" +:+ path
    ∧ rest = fileUri +:+ ":" +:+ line +:+ ":" +:+ col +:+ post
    ∧ path ≠ "" ∧ string_forall not_line_end path = true
    ∧ decimal_digits line ∧ decimal_digits col.

(** The state a case is in: that of the last [setState] call on it. *)
Definition state_of (c : TestCase) (st : Scan) : option (TestResultState * Z) :=
  (λ call : TestCase * TestResultState * Z, (call.1.2, call.2))
    <$> last (filter (λ call : TestCase * TestResultState * Z, call.1.1 = c)
                (setState_calls (req st))).

(** * Properties *)

(** ** Strings *)

Module JsStringFacts.
Import JsString.

Lemma append_nil_l (b : string) : "" +:+ b = b.
Proof. reflexivity. Qed.

Lemma append_cons (x : ascii) (a b : string) :
  String x a +:+ b = String x (a +:+ b).
Proof. reflexivity. Qed.

Ltac unfold_append :=
  repeat (rewrite ?append_nil_l, ?append_cons in *; simpl in * ).

Lemma append_assoc (a b c : string) : (a +:+ b) +:+ c = a +:+ (b +:+ c).
Proof.
  induction a as [|x a IH]; unfold_append; [reflexivity | now rewrite IH].
Qed.

Lemma append_nil_r (a : string) : a +:+ "" = a.
Proof.
  induction a as [|x a IH]; unfold_append; [reflexivity | now rewrite IH].
Qed.

Lemma prefix_spec (p s : string) :
  String.prefix p s = true ↔ ∃ b, s = p +:+ b.
Proof.
  revert p. induction s as [|y s IH]; intros [|x p]; simpl.
  - split; [exists ""; reflexivity | reflexivity].
  - split; [discriminate | intros [b Hb]; discriminate].
  - split; [eexists; reflexivity | reflexivity].
  - destruct (ascii_dec x y) as [->|Hne].
    + rewrite IH. split; intros [b Hb]; exists b; unfold_append; congruence.
    + split; [discriminate | intros [b Hb]; unfold_append; congruence].
Qed.

Lemma includes_unfold (pat s : string) :
  includes pat s =
    if String.prefix pat s then true
    else match s with
         | EmptyString => false
         | String _ r => includes pat r
         end.
Proof. destruct s; reflexivity. Qed.

Lemma includes_spec (pat s : string) :
  includes pat s = true ↔ contains pat s.
Proof.
  unfold contains. induction s as [|y s IH]; rewrite includes_unfold.
  - destruct (String.prefix pat "") eqn:Hp.
    + apply prefix_spec in Hp as [b Hb]. split; [|reflexivity].
      intros _. exists "", b. exact Hb.
    + split; [discriminate|]. intros ([|x a] & b & Hab); [|discriminate].
      rewrite <- Hp. apply prefix_spec. eauto.
  - destruct (String.prefix pat (String y s)) eqn:Hp.
    + apply prefix_spec in Hp as [b Hb]. split; [|reflexivity].
      intros _. exists "", b. exact Hb.
    + rewrite IH. split.
      * intros (a & b & ->). exists (String y a), b. reflexivity.
      * intros ([|x a] & b & Hab).
        -- exfalso. rewrite (proj2 (prefix_spec _ _)) in Hp; [discriminate | eauto].
        -- unfold_append. injection Hab as -> ->. eauto.
Qed.

Lemma includes_false (pat s : string) :
  includes pat s = false ↔ ¬ contains pat s.
Proof.
  rewrite <- includes_spec. destruct (includes pat s); split; congruence.
Qed.

Lemma split_nonempty (s : string) : split s ≠ [].
Proof.
  induction s as [|c s IH]; simpl; [discriminate|].
  destruct (Ascii.eqb c newline); [discriminate|].
  destruct (split s); discriminate.
Qed.

(** Splitting and joining on the same separator give the string back. *)
Lemma join_split (s : string) : join (split s) = s.
Proof.
  induction s as [|c s IH]; [reflexivity|].
  simpl. pose proof (split_nonempty s) as Hs.
  destruct (Ascii.eqb_spec c newline) as [->|Hne];
    destruct (split s) as [|h t]; try congruence.
  - change (join ("" :: h :: t)) with (String newline (join (h :: t))).
    now rewrite IH.
  - destruct t as [|h' t]; simpl in *; unfold_append; now rewrite IH.
Qed.

(** No piece of a split contains the separator. *)
Lemma split_no_newline (s l : string) :
  l ∈ split s → ¬ contains (String newline "") l.
Proof.
  revert l. induction s as [|c s IH]; intros l Hl.
  - apply list_elem_of_singleton in Hl as ->. intros ([|x a] & b & H); discriminate.
  - simpl in Hl. pose proof (split_nonempty s) as Hs.
    destruct (Ascii.eqb_spec c newline) as [->|Hne].
    + apply elem_of_cons in Hl as [->|Hl]; [|now apply IH].
      intros ([|x a] & b & H); discriminate.
    + destruct (split s) as [|h t]; [congruence|].
      apply elem_of_cons in Hl as [->|Hl].
      * intros ([|x a] & b & H); unfold_append.
        -- congruence.
        -- injection H as -> ->. apply (IH (a +:+ String newline b)).
           ++ left.
           ++ exists a, b. reflexivity.
      * apply IH. now right.
Qed.

Lemma findIndex_None {A} (p : A → bool) (l : list A) :
  findIndex p l = None ↔ ∀ x, x ∈ l → p x = false.
Proof.
  induction l as [|y l IH]; simpl.
  - split; [intros _ x Hx; inversion Hx | reflexivity].
  - destruct (p y) eqn:Hy.
    + split; [discriminate|]. intros H.
      specialize (H y (list_elem_of_here _ _)). congruence.
    + destruct (findIndex p l) as [i|]; simpl.
      * split; [discriminate|]. intros H.
        assert (Hnone : Some i = None); [|discriminate].
        apply IH. intros x Hx. apply H. now right.
      * split; [|reflexivity]. intros _ x Hx.
        apply elem_of_cons in Hx as [->|Hx]; [exact Hy|].
        now apply IH.
Qed.

Lemma findIndex_Some {A} (p : A → bool) (l : list A) (i : nat) :
  findIndex p l = Some i →
  ∃ pre x post, l = pre ++ x :: post ∧ length pre = i ∧
                (∀ y, y ∈ pre → p y = false) ∧ p x = true.
Proof.
  revert i. induction l as [|y l IH]; intros i; simpl; [discriminate|].
  destruct (p y) eqn:Hy.
  - intros [= <-]. exists [], y, l. repeat split; [|exact Hy].
    intros z Hz. inversion Hz.
  - destruct (findIndex p l) as [j|]; simpl; [|discriminate].
    intros [= <-]. destruct (IH j eq_refl) as (pre & x & post & -> & Hlen & Hpre & Hx).
    exists (y :: pre), x, post. repeat split; simpl; [congruence| |exact Hx].
    intros z Hz. apply elem_of_cons in Hz as [->|Hz]; auto.
Qed.

Lemma splice1_middle {A} (pre post : list A) (x y : A) :
  splice1 (length pre) y (pre ++ x :: post) = pre ++ y :: post.
Proof.
  unfold splice1. rewrite take_app_length.
  replace (S (length pre)) with (length (pre ++ [x])) by (rewrite length_app; simpl; lia).
  replace (pre ++ x :: post) with ((pre ++ [x]) ++ post) by (now rewrite <- app_assoc).
  now rewrite drop_app_length.
Qed.

End JsStringFacts.

(** ** Diagnostic formatter *)

Section Formatter.
Import JsString JsStringFacts.

Example tryMakeMarkdown_plain :
  tryMakeMarkdown "AssertionError: boom" = PlainText "AssertionError: boom".
Proof. reflexivity. Qed.

Example tryMakeMarkdown_diff :
  tryMakeMarkdown
    ("AssertionError" +:+ String newline
       ("+ actual - expected" +:+ String newline "+1"))
  = MarkdownString
      ("AssertionError" +:+ String newline
         ("```diff" +:+ String newline ("+1" +:+ String newline "```"))).
Proof. reflexivity. Qed.

Lemma tryMakeMarkdown_no_marker (m : string) :
  (∀ l, l ∈ split m → ¬ contains diff_marker l) →
  tryMakeMarkdown m = PlainText m.
Proof.
  intros Hno. unfold tryMakeMarkdown.
  destruct (findIndex (includes diff_marker) (split m)) as [i|] eqn:Hi; [|reflexivity].
  apply findIndex_Some in Hi as (pre & x & post & Hsplit & _ & _ & Hx).
  apply includes_spec in Hx. exfalso. apply (Hno x); [|exact Hx].
  rewrite Hsplit. apply elem_of_app. right. left.
Qed.

Lemma tryMakeMarkdown_marker (m : string) :
  (∃ l, l ∈ split m ∧ contains diff_marker l) →
  ∃ pre l post,
    split m = pre ++ l :: post ∧
    (∀ x, x ∈ pre → ¬ contains diff_marker x) ∧
    contains diff_marker l ∧
    tryMakeMarkdown m =
      MarkdownString (join (pre ++ fence_open :: post ++ [fence_close])).
Proof.
  intros (l & Hl & Hc). unfold tryMakeMarkdown.
  destruct (findIndex (includes diff_marker) (split m)) as [i|] eqn:Hi.
  - apply findIndex_Some in Hi as (pre & x & post & Hsplit & Hlen & Hpre & Hx).
    exists pre, x, post. split; [exact Hsplit|]. split.
    { intros y Hy. apply includes_false. now apply Hpre. }
    split; [now apply includes_spec|].
    rewrite Hsplit, <- Hlen, splice1_middle. unfold push.
    now rewrite <- app_assoc.
  - exfalso. rewrite findIndex_None in Hi. specialize (Hi l Hl).
    apply includes_false in Hi. contradiction.
Qed.

End Formatter.

(** ** Location resolver *)

Module LocationReFacts.
Import LocationRe JsStringFacts.

Lemma class_plus_sound {R} cls (s : string) (k : string → string → option R) x :
  class_plus cls s k = Some x →
  ∃ m rest, s = m +:+ rest ∧ run_of cls m ∧ k m rest = Some x.
Proof.
  revert k. induction s as [|c r IH]; intros k; simpl; [discriminate|].
  destruct (cls c) eqn:Hc; [|discriminate].
  destruct (class_plus cls r _) as [y|] eqn:Hrec.
  - intros [= ->]. apply IH in Hrec as (m & rest & -> & [_ Hm] & Hk).
    exists (String c m), rest. repeat split; [discriminate| |exact Hk].
    simpl. now rewrite Hc.
  - intros Hk. exists (String c ""), r. repeat split; [discriminate| |exact Hk].
    simpl. now rewrite Hc.
Qed.

Lemma class_plus_complete {R} cls (s : string) (k : string → string → option R) m rest :
  s = m +:+ rest → run_of cls m → is_Some (k m rest) →
  is_Some (class_plus cls s k).
Proof.
  revert k m. induction s as [|c r IH]; intros k m Hs [Hne Hm] Hk.
  - destruct m; [congruence | discriminate].
  - destruct m as [|c' m]; [congruence|]. unfold_append.
    injection Hs as <- ->. apply andb_true_iff in Hm as [Hc Hm]. rewrite Hc.
    destruct (class_plus cls _ _) as [y|] eqn:Hrec; [eauto|].
    destruct m as [|c'' m].
    + unfold_append. exact Hk.
    + assert (is_Some (class_plus cls (String c'' m +:+ rest)
                         (λ m0 rest0, k (String c m0) rest0))) as [z Hz].
      { eapply IH; [reflexivity | split; [discriminate | exact Hm] | exact Hk]. }
      congruence.
Qed.

Lemma colon_spec {R} (s : string) (k : string → option R) x :
  colon s k = Some x ↔ ∃ rest, s = ":" +:+ rest ∧ k rest = Some x.
Proof.
  unfold colon. split.
  - destruct s as [|c r]; [discriminate|].
    destruct (Ascii.eqb_spec c ":") as [->|Hne].
    + intros Hk. exists r. split; [reflexivity | exact Hk].
    + destruct c as [[] [] [] [] [] [] [] []]; try discriminate. congruence.
  - intros (rest & -> & Hk). exact Hk.
Qed.

Lemma literal_spec {R} (lit s : string) (k : string → option R) x :
  literal lit s k = Some x ↔ ∃ rest, s = lit +:+ rest ∧ k rest = Some x.
Proof.
  revert s. induction lit as [|a lit IH]; intros s.
  - destruct s; simpl; split; eauto; intros (rest & -> & Hk); exact Hk.
  - destruct s as [|b s]; simpl.
    + split; [discriminate | intros (rest & Hs & _); discriminate].
    + destruct (Ascii.eqb_spec a b) as [->|Hne].
      * rewrite IH. split; intros (rest & Hs & Hk); exists rest; split; auto.
        -- unfold_append. congruence.
        -- unfold_append. congruence.
      * split; [discriminate|]. intros (rest & Hs & _). unfold_append. congruence.
Qed.

(** An attempt succeeds with captures that spell out an occurrence. *)
Lemma match_here_sound (s fileUri line col : string) :
  match_here s = Some (fileUri, line, col) → pattern_at s fileUri line col.
Proof.
  unfold match_here. intros H.
  apply literal_spec in H as (s1 & -> & H).
  apply class_plus_sound in H as (path & s2 & -> & Hpath & H).
  apply colon_spec in H as (s3 & -> & H).
  apply class_plus_sound in H as (l & s4 & -> & Hl & H).
  apply colon_spec in H as (s5 & -> & H).
  apply class_plus_sound in H as (c & post & -> & Hc & H).
  injection H as <- <- <-. exists path, post.
  split; [reflexivity|]. split; [now rewrite ?append_assoc | auto].
Qed.

(** An attempt succeeds wherever an occurrence starts. *)
Lemma match_here_complete (s fileUri line col : string) :
  pattern_at s fileUri line col → is_Some (match_here s).
Proof.
  intros (path & post & -> & -> & Hpath & Hl & Hc). unfold match_here.
  rewrite !append_assoc.
  assert (∀ R (k : string → option R) rest, is_Some (k rest) →
            is_Some (colon (":" +:+ rest) k)) as Hcolon.
  { intros R k rest [y Hy]. exists y. apply colon_spec. eauto. }
  assert (∀ R (k : string → option R) rest, is_Some (k rest) →
            is_Some (literal scheme (scheme +:+ rest) k)) as Hlit.
  { intros R k rest [y Hy]. exists y. apply literal_spec. eauto. }
  apply Hlit.
  eapply class_plus_complete; [reflexivity | exact Hpath |].
  apply Hcolon.
  eapply class_plus_complete; [reflexivity | exact Hl |].
  apply Hcolon.
  eapply class_plus_complete; [reflexivity | exact Hc |].
  eauto.
Qed.

Lemma exec_unfold (s : string) :
  exec s = match match_here s with
           | Some m => Some m
           | None => match s with
                     | EmptyString => None
                     | String _ r => exec r
                     end
           end.
Proof. destruct s; reflexivity. Qed.

(** [exec] reports the attempt at the leftmost position that succeeds. *)
Lemma exec_Some (s : string) m :
  exec s = Some m →
  ∃ pre rest, s = pre +:+ rest ∧ match_here rest = Some m ∧
    ∀ pre' rest', s = pre' +:+ rest' →
      String.length pre' < String.length pre → match_here rest' = None.
Proof.
  induction s as [|c r IH]; rewrite exec_unfold.
  - destruct (match_here "") as [m'|] eqn:Hm; [|discriminate].
    intros [= ->]. exists "", "". repeat split; [exact Hm|].
    intros pre' rest' _ Hlt. simpl in Hlt. lia.
  - destruct (match_here (String c r)) as [m'|] eqn:Hm.
    + intros [= ->]. exists "", (String c r). repeat split; [exact Hm|].
      intros pre' rest' _ Hlt. simpl in Hlt. lia.
    + intros Hex. apply IH in Hex as (pre & rest & -> & Hrest & Hleft).
      exists (String c pre), rest. repeat split; [exact Hrest|].
      intros [|c' pre'] rest' Hs Hlt; unfold_append.
      * now subst rest'.
      * injection Hs as <- Hs. apply (Hleft pre' rest' Hs). lia.
Qed.

Lemma exec_complete (pre rest : string) :
  is_Some (match_here rest) → is_Some (exec (pre +:+ rest)).
Proof.
  intros [m Hm]. induction pre as [|c pre IH].
  - rewrite append_nil_l, exec_unfold, Hm. eauto.
  - rewrite append_cons, exec_unfold.
    destruct (match_here (String c (pre +:+ rest))); [eauto | exact IH].
Qed.

(** [exec] finds nothing exactly when the pattern occurs nowhere. *)
Lemma exec_None (s : string) :
  exec s = None ↔ ¬ has_location_pattern s.
Proof.
  split.
  - intros Hnone (pre & rest & u & l & c & -> & Hpat).
    destruct (exec_complete pre rest) as [m Hm]; [|congruence].
    eapply match_here_complete, Hpat.
  - intros Hno. destruct (exec s) as [[[u l] c]|] eqn:Hex; [|reflexivity].
    exfalso. apply Hno.
    apply exec_Some in Hex as (pre & rest & -> & Hm & _).
    exists pre, rest, u, l, c. split; [reflexivity|].
    now apply match_here_sound.
Qed.

End LocationReFacts.

Section Resolver.
Import LocationReFacts.
Variable h : Host.

Example exec_in_stack_frame :
  LocationRe.exec "    at Context.<anonymous> (file:///a/b.js:5:3)" =
    Some ("file:///a/b.js", "5", "3").
Proof. reflexivity. Qed.

(** The path is greedy: it runs up to the last [:digits:digits] of its
    line. *)
Example exec_greedy_path :
  LocationRe.exec "file:///a.js:5:3:7:9x file:///b:1:2" =
    Some ("file:///a.js:5:3:7:9x file:///b", "1", "2").
Proof. reflexivity. Qed.

Example exec_needs_a_path : LocationRe.exec "file:///:5:3" = None.
Proof. reflexivity. Qed.

Example exec_needs_three_slashes : LocationRe.exec "file://a:1:2" = None.
Proof. reflexivity. Qed.

Example exec_stops_at_line_end :
  LocationRe.exec ("file:///a" +:+ String JsString.newline ":1:2") = None.
Proof. reflexivity. Qed.

Lemma load_source_map_Throw (fileUri e : string) :
  load_source_map h fileUri = Throw e ↔
    getContentsFromFile h (Uri_parse (fileUri +:+ ".map")) = Throw e
    ∨ ∃ contents,
        getContentsFromFile h (Uri_parse (fileUri +:+ ".map")) = Normal contents ∧
        new_SourceMapConsumer h contents (fileUri +:+ ".map") = Throw e.
Proof.
  unfold load_source_map.
  destruct (getContentsFromFile h _) as [contents|e'].
  - split; [eauto|]. intros [H|(c & [= ->] & H)]; [discriminate | exact H].
  - split; [intros [= ->]; now left|].
    intros [[= ->]|(c & H & _)]; [reflexivity | discriminate].
Qed.

Lemma load_source_map_Normal (fileUri : string) (sourceMap : SourceMapConsumer) :
  load_source_map h fileUri = Normal sourceMap ↔
    ∃ contents,
      getContentsFromFile h (Uri_parse (fileUri +:+ ".map")) = Normal contents ∧
      new_SourceMapConsumer h contents (fileUri +:+ ".map") = Normal sourceMap.
Proof.
  unfold load_source_map.
  destruct (getContentsFromFile h _) as [contents|e'].
  - split; [eauto|]. intros (c & [= ->] & H). exact H.
  - split; [discriminate|]. intros (c & H & _). discriminate.
Qed.

End Resolver.

(** ** Run scanner *)

Section Scanner.
Variable h : Host.

Lemma deliver_all_app (st : Scan) (xs ys : list Input) :
  deliver_all h st (xs ++ ys) = deliver_all h (deliver_all h st xs) ys.
Proof. apply fold_left_app. Qed.

Lemma deliver_all_cons (st : Scan) (i : Input) (inputs : list Input) :
  deliver_all h st (i :: inputs) = deliver_all h (deliver h st i) inputs.
Proof. reflexivity. Qed.

(** *** Settlement *)

Lemma resolve_settled (v : TestResultState) (st : Scan) :
  settled (resolve v st) = Some (default v (settled st)).
Proof. unfold resolve. destruct (settled st) eqn:E; simpl; congruence. Qed.

Lemma deliver_settled (st : Scan) (i : Input) :
  subscribed st = true →
  settled (deliver h st i) =
    match settled st with
    | Some v => Some v
    | None => settles_with i
    end.
Proof.
  intros Hsub. destruct i as [| e | str | [| info | info |] | k]; simpl; rewrite ?Hsub.
  - rewrite resolve_settled. now destruct (settled st).
  - rewrite resolve_settled. simpl. now destruct (settled st).
  - simpl. now destruct (settled st).
  - now destruct (settled st).
  - destruct (tests st !! pass_fullTitle info); simpl; now destruct (settled st).
  - destruct (tests st !! fullTitle info); simpl; now destruct (settled st).
  - rewrite resolve_settled. now destruct (settled st).
  - destruct (inflight st !! k); [|now destruct (settled st)].
    destruct (tryDeriveLocation h _) as [ws loc]. simpl. now destruct (settled st).
Qed.

Lemma deliver_subscribed (st : Scan) (i : Input) :
  subscribed (deliver h st i) = subscribed st.
Proof.
  destruct i as [| e | str | [| info | info |] | k]; simpl;
    try (destruct (subscribed st) eqn:Hsub; [|assumption]);
    unfold resolve; simpl;
    repeat match goal with
           | |- context [match ?x with _ => _ end] => destruct x; simpl
           end; auto.
Qed.

Lemma deliver_dispose_calls (st : Scan) (i : Input) :
  subscribed st = true →
  dispose_calls (deliver h st i) =
    match settled st, settles_with i with
    | None, Some _ => S (dispose_calls st)
    | _, _ => dispose_calls st
    end.
Proof.
  intros Hsub. destruct i as [| e | str | [| info | info |] | k]; simpl; rewrite ?Hsub;
    unfold resolve; simpl;
    repeat match goal with
           | |- context [match ?x with _ => _ end] => destruct x; simpl
           end; auto.
Qed.

(** A scan that registered no handler and has no lookup in flight ignores
    every input. *)
Lemma deliver_unsubscribed (st : Scan) (i : Input) :
  subscribed st = false → inflight st = [] → deliver h st i = st.
Proof.
  intros Hsub Hin. destruct i as [| e | str | evt | k]; simpl; rewrite ?Hsub; auto.
  now rewrite Hin.
Qed.

Lemma deliver_all_unsubscribed (st : Scan) (inputs : list Input) :
  subscribed st = false → inflight st = [] → deliver_all h st inputs = st.
Proof.
  intros Hsub Hin. induction inputs as [|i inputs IH]; [reflexivity|].
  now rewrite deliver_all_cons, deliver_unsubscribed.
Qed.

Lemma deliver_all_subscribed (st : Scan) (inputs : list Input) :
  subscribed (deliver_all h st inputs) = subscribed st.
Proof.
  revert st. induction inputs as [|i inputs IH]; intros st; [reflexivity|].
  now rewrite deliver_all_cons, IH, deliver_subscribed.
Qed.

Lemma deliver_all_settled (st : Scan) (inputs : list Input) :
  subscribed st = true →
  settled (deliver_all h st inputs) =
    match settled st with
    | Some v => Some v
    | None => head (omap settles_with inputs)
    end.
Proof.
  revert st. induction inputs as [|i inputs IH]; intros st Hsub.
  - simpl. now destruct (settled st).
  - rewrite deliver_all_cons, IH by now rewrite deliver_subscribed.
    rewrite deliver_settled by assumption. simpl.
    destruct (settled st); [reflexivity|].
    now destruct (settles_with i).
Qed.

Lemma deliver_all_dispose_calls (st : Scan) (inputs : list Input) :
  subscribed st = true →
  dispose_calls st = match settled st with Some _ => 1 | None => 0 end →
  dispose_calls (deliver_all h st inputs) =
    match settled (deliver_all h st inputs) with Some _ => 1 | None => 0 end.
Proof.
  revert st. induction inputs as [|i inputs IH]; intros st Hsub Hinv; [exact Hinv|].
  rewrite deliver_all_cons. apply IH; [now rewrite deliver_subscribed|].
  rewrite deliver_dispose_calls, deliver_settled by assumption.
  destruct (settled st), (settles_with i); simpl; lia.
Qed.

(** *** Counting calls *)

Lemma count_snoc {A} (P : A → Prop) `{∀ x, Decision (P x)} (l : list A) (x : A) :
  length (filter P (l ++ [x])) = length (filter P l) + (if decide (P x) then 1 else 0).
Proof.
  rewrite filter_app, length_app. f_equal.
  rewrite filter_cons, filter_nil. now destruct (decide (P x)).
Qed.

Lemma count_delete {A} (P : A → Prop) `{∀ x, Decision (P x)} (l : list A) (k : nat) (x : A) :
  l !! k = Some x →
  length (filter P l) = length (filter P (delete k l)) + (if decide (P x) then 1 else 0).
Proof.
  revert k. induction l as [|y l IH]; intros [|k] Hk; try discriminate.
  - injection Hk as ->. simpl. rewrite filter_cons.
    destruct (decide (P x)); simpl; lia.
  - simpl in Hk. apply IH in Hk. change (delete (S k) (y :: l)) with (y :: delete k l).
    rewrite !filter_cons. destruct (decide (P y)); simpl; lia.
Qed.

Lemma keyed_by_label_delete (idx : gmap string TestCase) (title : string) :
  keyed_by_label idx → keyed_by_label (delete title idx).
Proof.
  intros Hk t c Hl. apply lookup_delete_Some in Hl as [_ Hl]. now apply Hk.
Qed.

Lemma pending_count_delete (st : Scan) (title : string) (tc c : TestCase) :
  keyed_by_label (tests st) →
  tests st !! title = Some tc →
  pending_count c st =
    pending_count c (with_tests (delete title (tests st)) st)
    + (if decide (tc = c) then 1 else 0).
Proof.
  intros Hk Htc. unfold pending_count. simpl.
  destruct (decide (tc = c)) as [->|Hne].
  - rewrite (Hk _ _ Htc), lookup_delete_eq, Htc.
    rewrite decide_True by reflexivity. now rewrite decide_False by discriminate.
  - destruct (decide (fullLabel c = title)) as [<-|Hlabel].
    + rewrite lookup_delete_eq, Htc.
      rewrite decide_False by congruence. now rewrite decide_False by discriminate.
    + rewrite lookup_delete_ne by congruence.
      destruct (decide (tests st !! fullLabel c = Some c)); lia.
Qed.

Lemma at_most_once_resolve (v : TestResultState) (st : Scan) :
  at_most_once st → at_most_once (resolve v st).
Proof. unfold resolve. now destruct (settled st). Qed.

Lemma at_most_once_log (line : string) (st : Scan) :
  at_most_once st → at_most_once (log line st).
Proof. trivial. Qed.

Lemma at_most_once_onMochaEvent (evt : MochaEventTuple) (st : Scan) :
  at_most_once st → at_most_once (onMochaEvent evt st).
Proof.
  intros [Hk Hc]. destruct evt as [| info | info |]; simpl.
  - now split.
  - destruct (tests st !! pass_fullTitle info) as [tc|] eqn:Htc; [|now split].
    split; [now apply keyed_by_label_delete|]. intros c. specialize (Hc c).
    rewrite (pending_count_delete st _ tc c Hk Htc) in Hc.
    unfold setState_count, inflight_count, pending_count in *. simpl in *.
    rewrite count_snoc. simpl. lia.
  - destruct (tests st !! fullTitle info) as [tc|] eqn:Htc; [|now split].
    split; [now apply keyed_by_label_delete|]. intros c. specialize (Hc c).
    rewrite (pending_count_delete st _ tc c Hk Htc) in Hc.
    unfold setState_count, inflight_count, pending_count in *. simpl in *.
    rewrite count_snoc. simpl. lia.
  - now apply at_most_once_resolve.
Qed.

Lemma at_most_once_deliver (st : Scan) (i : Input) :
  at_most_once st → at_most_once (deliver h st i).
Proof.
  intros Hinv. destruct i as [| e | str | evt | k]; simpl;
    try (destruct (subscribed st); [|assumption]).
  - now apply at_most_once_resolve.
  - now apply at_most_once_resolve, at_most_once_log.
  - now apply at_most_once_log.
  - now apply at_most_once_onMochaEvent.
  - destruct (inflight st !! k) as [task|] eqn:Hk; [|assumption].
    destruct (tryDeriveLocation h _) as [ws loc].
    destruct Hinv as [Hkey Hc]. split; [exact Hkey|]. intros c. specialize (Hc c).
    unfold setState_count, inflight_count, pending_count in *. simpl in *.
    rewrite (count_delete (λ task, if_tcase task = c) _ k task Hk) in Hc.
    rewrite count_snoc. simpl. lia.
Qed.

Lemma at_most_once_deliver_all (st : Scan) (inputs : list Input) :
  at_most_once st → at_most_once (deliver_all h st inputs).
Proof.
  revert st. induction inputs as [|i inputs IH]; intros st Hinv; [exact Hinv|].
  rewrite deliver_all_cons. now apply IH, at_most_once_deliver.
Qed.

Lemma at_most_once_scanTestOutput (out : OutputChannel) (pending : gmap string TestCase)
    (cancelled : bool) :
  keyed_by_label pending →
  at_most_once (scanTestOutput out new_TestRunOptions pending cancelled).
Proof.
  intros Hk. split; [now destruct cancelled|]. intros c.
  unfold setState_count, inflight_count, pending_count.
  destruct cancelled; simpl; case_decide; lia.
Qed.

(** *** The index only shrinks *)

Lemma deliver_tests_None (st : Scan) (i : Input) (title : string) :
  tests st !! title = None → tests (deliver h st i) !! title = None.
Proof.
  intros Hnone. destruct i as [| e | str | [| info | info |] | k]; simpl;
    try (destruct (subscribed st); [|assumption]);
    unfold resolve; simpl;
    repeat match goal with
           | |- context [match ?x with _ => _ end] => destruct x eqn:?; simpl
           end; auto;
    apply lookup_delete_None; auto.
Qed.

Lemma deliver_all_tests_None (st : Scan) (inputs : list Input) (title : string) :
  tests st !! title = None → tests (deliver_all h st inputs) !! title = None.
Proof.
  revert st. induction inputs as [|i inputs IH]; intros st Hnone; [exact Hnone|].
  rewrite deliver_all_cons. now apply IH, deliver_tests_None.
Qed.

(** An event for a title that is not in the index only writes its log
    line. *)
Lemma onMochaEvent_unknown (st : Scan) (evt : MochaEventTuple) (title : string) :
  event_title evt = Some title →
  tests st !! title = None →
  ∃ line, event_marker evt = Some line ∧ onMochaEvent evt st = log line st.
Proof.
  destruct evt as [| info | info |]; simpl; try discriminate;
    intros [= <-] ->; eauto.
Qed.

(** The first event for a title that is in the index removes the title. *)
Lemma onMochaEvent_removes (st : Scan) (evt : MochaEventTuple) (title : string) :
  event_title evt = Some title →
  tests (onMochaEvent evt st) !! title = None.
Proof.
  destruct evt as [| info | info |]; simpl; try discriminate; intros [= <-].
  - destruct (tests st !! pass_fullTitle info) eqn:E; simpl; [|exact E].
    apply lookup_delete_eq.
  - destruct (tests st !! fullTitle info) eqn:E; simpl; [|exact E].
    apply lookup_delete_eq.
Qed.

End Scanner.

(** ** Pending-index builder *)

Section BuilderFacts.

(** Induction on a hierarchy, with the property available for every child
    that the traversal expands. *)
Lemma VSCodeTest_tree_ind (P : VSCodeTest → Prop) :
  (∀ c, P (CaseNode c)) →
  (∀ f ch d, Forall P d → P (FileNode f ch d)) →
  (∀ ch, Forall P ch → P (OtherNode ch)) →
  ∀ t, P t.
Proof.
  intros Hcase Hfile Hother. fix IH 1. intros [c | f ch d | ch].
  - apply Hcase.
  - apply Hfile. induction d as [|x d IHd]; constructor; [apply IH | exact IHd].
  - apply Hother. induction ch as [|x ch IHch]; constructor; [apply IH | exact IHch].
Qed.

Lemma nodes_below_unfold (t : VSCodeTest) :
  nodes_below t = t :: concat (map nodes_below (expanded_children t)).
Proof. destruct t; reflexivity. Qed.

Lemma nodes_below_self (t : VSCodeTest) : t ∈ nodes_below t.
Proof. rewrite nodes_below_unfold. left. Qed.

Lemma elem_of_forest (x : VSCodeTest) (ts : list VSCodeTest) :
  x ∈ concat (map nodes_below ts) ↔ ∃ t, t ∈ ts ∧ x ∈ nodes_below t.
Proof.
  induction ts as [|t ts IH]; simpl.
  - split; [intros H; inversion H | intros (t & Ht & _); inversion Ht].
  - rewrite elem_of_app, IH. split.
    + intros [Hx|(t' & Ht' & Hx)]; [exists t | exists t']; split; auto.
      * left.
      * now right.
    + intros (t' & Ht' & Hx). apply elem_of_cons in Ht' as [->|Ht']; eauto.
Qed.

(** Whatever is reached has its expanded children reached too. *)
Lemma nodes_below_closed (t x y : VSCodeTest) :
  x ∈ nodes_below t → y ∈ expanded_children x → y ∈ nodes_below t.
Proof.
  revert t x y.
  assert (∀ t, Forall (λ t', ∀ x y, x ∈ nodes_below t' → y ∈ expanded_children x →
                              y ∈ nodes_below t') (expanded_children t) →
          ∀ x y, x ∈ nodes_below t → y ∈ expanded_children x → y ∈ nodes_below t) as Hstep.
  { intros t Hch x y Hx Hy. rewrite nodes_below_unfold in Hx |- *.
    apply elem_of_cons in Hx as [->|Hx].
    - right. apply elem_of_forest. exists y. split; [exact Hy | apply nodes_below_self].
    - right. apply elem_of_forest in Hx as (t' & Ht' & Hx).
      apply elem_of_forest. exists t'. split; [exact Ht'|].
      rewrite Forall_forall in Hch. eapply Hch; eauto. }
  intros t. induction t as [c | f ch d IHd | ch IHch] using VSCodeTest_tree_ind;
    apply Hstep; simpl; auto.
Qed.

Lemma forest_closed (ts : list VSCodeTest) (x y : VSCodeTest) :
  x ∈ concat (map nodes_below ts) → y ∈ expanded_children x →
  y ∈ concat (map nodes_below ts).
Proof.
  rewrite !elem_of_forest. intros (t & Ht & Hx) Hy. exists t. split; [exact Ht|].
  eapply nodes_below_closed; eauto.
Qed.

(** *** One batch *)

Lemma fold_visit (batch : list VSCodeTest) (b : Builder) :
  let b' := fold_left visit batch b in
  queue b' = rev (pushes batch) ++ queue b ∧
  titleMap b' = set_all (direct_cases batch) (titleMap b) ∧
  visited b' = visited b ++ batch ∧
  refreshed b' = refreshed b ++ direct_files batch ∧
  set_calls b' = set_calls b ++ direct_cases batch.
Proof.
  revert b. induction batch as [|t batch IH]; intros b.
  - simpl. now rewrite !app_nil_r.
  - simpl. destruct (IH (visit b t)) as (Hq & Hm & Hv & Hr & Hs).
    rewrite Hq, Hm, Hv, Hr, Hs. clear.
    destruct t as [c | f ch d | ch]; simpl;
      rewrite <- ?app_assoc; simpl; auto.
Qed.

Lemma queue_weight_cons (batch : list VSCodeTest) (q : list (list VSCodeTest)) :
  queue_weight (batch :: q) = S (list_sum (map weight batch) + queue_weight q).
Proof. reflexivity. Qed.

Lemma queue_weight_app (q1 q2 : list (list VSCodeTest)) :
  queue_weight (q1 ++ q2) = queue_weight q1 + queue_weight q2.
Proof. unfold queue_weight. now rewrite map_app, list_sum_app. Qed.

Lemma queue_weight_rev (q : list (list VSCodeTest)) :
  queue_weight (rev q) = queue_weight q.
Proof.
  induction q as [|x q IH]; [reflexivity|]. simpl rev.
  rewrite queue_weight_app, IH, !queue_weight_cons. unfold queue_weight. simpl. lia.
Qed.

Lemma pushes_cons (t : VSCodeTest) (batch : list VSCodeTest) :
  pushes (t :: batch) =
    match t with
    | CaseNode _ => pushes batch
    | _ => expanded_children t :: pushes batch
    end.
Proof. now destruct t. Qed.

Lemma pushes_weight (batch : list VSCodeTest) :
  queue_weight (pushes batch) + length batch = list_sum (map weight batch).
Proof.
  induction batch as [|t batch IH]; [reflexivity|].
  rewrite pushes_cons.
  destruct t as [c | f ch d | ch]; rewrite ?queue_weight_cons;
    unfold expanded_children; simpl; lia.
Qed.

(** *** Termination *)

Lemma drain_terminates (fuel : nat) (b : Builder) :
  queue_weight (queue b) ≤ fuel → is_Some (drain fuel b).
Proof.
  revert b. induction fuel as [|fuel IH]; intros b Hle.
  - destruct (queue b) as [|batch rest] eqn:Hq; simpl; rewrite Hq; [eauto|].
    rewrite queue_weight_cons in Hle. lia.
  - simpl. destruct (queue b) as [|batch rest] eqn:Hq; [eauto|].
    apply IH. destruct (fold_visit batch (pop b)) as (-> & _).
    simpl. rewrite Hq. simpl.
    rewrite queue_weight_app, queue_weight_rev.
    pose proof (pushes_weight batch) as Hw.
    rewrite queue_weight_cons in Hle. lia.
Qed.

(** *** What the loop computes *)

Lemma direct_cases_app (l1 l2 : list VSCodeTest) :
  direct_cases (l1 ++ l2) = direct_cases l1 ++ direct_cases l2.
Proof. apply omap_app. Qed.

Lemma direct_files_app (l1 l2 : list VSCodeTest) :
  direct_files (l1 ++ l2) = direct_files l1 ++ direct_files l2.
Proof. apply omap_app. Qed.

Lemma set_all_app (l1 l2 : list TestCase) (m : gmap string TestCase) :
  set_all (l1 ++ l2) m = set_all l2 (set_all l1 m).
Proof. apply fold_left_app. Qed.

Lemma forest_app (l1 l2 : list VSCodeTest) :
  concat (map nodes_below (l1 ++ l2)) =
    concat (map nodes_below l1) ++ concat (map nodes_below l2).
Proof. now rewrite map_app, concat_app. Qed.

(** The nodes below a batch are the batch itself and the nodes below the
    batches it pushes. *)
Lemma forest_pushes (batch : list VSCodeTest) :
  concat (map nodes_below batch) ≡ₚ
    batch ++ concat (map nodes_below (concat (pushes batch))).
Proof.
  induction batch as [|t batch IH]; [reflexivity|].
  rewrite pushes_cons. simpl map. simpl concat. rewrite nodes_below_unfold.
  destruct t as [c | f ch d | ch]; unfold expanded_children; simpl.
  - now rewrite IH.
  - rewrite forest_app, IH. constructor. rewrite !app_assoc.
    apply Permutation_app_tail, Permutation_app_comm.
  - rewrite forest_app, IH. constructor. rewrite !app_assoc.
    apply Permutation_app_tail, Permutation_app_comm.
Qed.

Lemma concat_rev_perm {A} (q : list (list A)) : concat (rev q) ≡ₚ concat q.
Proof.
  induction q as [|x q IH]; [reflexivity|]. simpl.
  rewrite concat_app, IH. simpl. rewrite app_nil_r. apply Permutation_app_comm.
Qed.

Lemma forest_perm (l1 l2 : list VSCodeTest) :
  l1 ≡ₚ l2 → concat (map nodes_below l1) ≡ₚ concat (map nodes_below l2).
Proof.
  induction 1 as [| x l1 l2 _ IH | x y l | l1 l2 l3 _ IH1 _ IH2]; simpl.
  - reflexivity.
  - now rewrite IH.
  - rewrite !app_assoc. apply Permutation_app_tail, Permutation_app_comm.
  - now rewrite IH1.
Qed.

Lemma drain_spec (fuel : nat) (b b' : Builder) :
  drain fuel b = Some b' →
  ∃ new,
    visited b' = visited b ++ new ∧
    new ≡ₚ concat (map nodes_below (concat (queue b))) ∧
    set_calls b' = set_calls b ++ direct_cases new ∧
    refreshed b' = refreshed b ++ direct_files new ∧
    titleMap b' = set_all (direct_cases new) (titleMap b) ∧
    queue b' = [].
Proof.
  revert b. induction fuel as [|fuel IH]; intros b; simpl;
    destruct (queue b) as [|batch rest] eqn:Hq; try discriminate.
  1, 2: intros [= <-]; exists []; rewrite !app_nil_r, Hq; repeat split; reflexivity.
  intros Hdrain. apply IH in Hdrain as (new & Hv & Hperm & Hs & Hr & Hm & Hqueue).
  destruct (fold_visit batch (pop b)) as (Hq1 & Hm1 & Hv1 & Hr1 & Hs1).
  rewrite Hq1 in Hperm. rewrite Hv1 in Hv. rewrite Hs1 in Hs. rewrite Hr1 in Hr.
  rewrite Hm1 in Hm. simpl in *. rewrite Hq in Hperm. simpl in Hperm.
  exists (batch ++ new). rewrite direct_cases_app, direct_files_app, set_all_app.
  rewrite <- !app_assoc in *. repeat split; auto.
  rewrite Hperm, concat_app, !forest_app.
  rewrite (forest_perm _ _ (concat_rev_perm (pushes batch))).
  rewrite app_assoc. apply Permutation_app_tail. symmetry. apply forest_pushes.
Qed.

(** *** Last call wins *)

Lemma last_with_title_cons (title : string) (c : TestCase) (calls : list TestCase) :
  last_with_title title (c :: calls) =
    match last_with_title title calls with
    | Some c' => Some c'
    | None => if decide (fullLabel c = title) then Some c else None
    end.
Proof.
  unfold last_with_title. rewrite filter_cons.
  destruct (decide (fullLabel c = title)); [|now destruct (last _)].
  apply last_cons.
Qed.

Lemma set_all_lookup (calls : list TestCase) (m : gmap string TestCase) (title : string) :
  set_all calls m !! title =
    match last_with_title title calls with
    | Some c => Some c
    | None => m !! title
    end.
Proof.
  revert m. induction calls as [|c calls IH]; intros m; [reflexivity|].
  change (set_all (c :: calls) m) with (set_all calls (<[fullLabel c := c]> m)).
  rewrite IH, last_with_title_cons.
  destruct (last_with_title title calls); [reflexivity|].
  destruct (decide (fullLabel c = title)) as [<-|Hne].
  - apply lookup_insert_eq.
  - now apply lookup_insert_ne.
Qed.

Lemma last_with_title_Some (title : string) (calls : list TestCase) (c : TestCase) :
  last_with_title title calls = Some c → c ∈ calls ∧ fullLabel c = title.
Proof.
  unfold last_with_title. intros Hl. apply last_Some in Hl as [l' Hl].
  assert (c ∈ filter (λ c, fullLabel c = title) calls) as Hin.
  { rewrite Hl. apply elem_of_app. right. left. }
  apply list_elem_of_filter in Hin. tauto.
Qed.

Lemma last_with_title_is_Some (calls : list TestCase) (c : TestCase) :
  c ∈ calls → ∃ c', last_with_title (fullLabel c) calls = Some c'.
Proof.
  intros Hin. unfold last_with_title.
  assert (c ∈ filter (λ c', fullLabel c' = fullLabel c) calls) as Hf.
  { apply list_elem_of_filter. auto. }
  destruct (last _) as [c'|] eqn:Hl; [eauto|].
  apply last_None in Hl. rewrite Hl in Hf. inversion Hf.
Qed.

Lemma elem_of_direct_cases (c : TestCase) (l : list VSCodeTest) :
  c ∈ direct_cases l ↔ CaseNode c ∈ l.
Proof.
  unfold direct_cases. rewrite list_elem_of_omap. split.
  - intros ([c' | |] & Hin & Heq); try discriminate. now injection Heq as ->.
  - intros Hin. exists (CaseNode c). auto.
Qed.

Lemma elem_of_direct_files (t : VSCodeTest) (l : list VSCodeTest) :
  t ∈ direct_files l ↔ t ∈ l ∧ ∃ f ch d, t = FileNode f ch d.
Proof.
  unfold direct_files. rewrite list_elem_of_omap. split.
  - intros ([| f ch d |] & Hin & Heq); try discriminate. injection Heq as <-. eauto.
  - intros (Hin & f & ch & d & ->). eauto.
Qed.

(** *** The builder as a whole *)

Lemma getPendingTestMap_trace_total (tests : list VSCodeTest) :
  ∃ b,
    getPendingTestMap_trace tests = Some b ∧
    queue b = [] ∧
    visited b ≡ₚ concat (map nodes_below tests) ∧
    set_calls b = direct_cases (visited b) ∧
    refreshed b = direct_files (visited b) ∧
    titleMap b = set_all (set_calls b) ∅.
Proof.
  unfold getPendingTestMap_trace.
  destruct (drain_terminates (queue_weight [tests]) (builder_init tests)) as [b Hb];
    [reflexivity|].
  exists b. split; [exact Hb|].
  apply drain_spec in Hb as (new & Hv & Hperm & Hs & Hr & Hm & Hq).
  simpl in *. rewrite app_nil_r in Hperm. subst new.
  rewrite Hs, Hr, Hm. auto.
Qed.

Lemma getPendingTestMap_keyed (tests : list VSCodeTest) (pending : gmap string TestCase) :
  getPendingTestMap tests = Some pending → keyed_by_label pending.
Proof.
  unfold getPendingTestMap.
  destruct (getPendingTestMap_trace_total tests) as (b & -> & _ & _ & _ & _ & Hm).
  intros [= <-] title c. rewrite Hm, set_all_lookup, lookup_empty.
  destruct (last_with_title title (set_calls b)) as [c'|] eqn:Hl; [|discriminate].
  intros [= ->]. now apply last_with_title_Some in Hl.
Qed.

Lemma drain_mono (fuel fuel' : nat) (b b' : Builder) :
  drain fuel b = Some b' → fuel ≤ fuel' → drain fuel' b = Some b'.
Proof.
  revert fuel' b. induction fuel as [|fuel IH]; intros fuel' b; simpl;
    destruct (queue b) as [|batch rest] eqn:Hq; try discriminate.
  1, 2: intros [= <-] _; destruct fuel'; simpl; now rewrite Hq.
  intros Hdrain Hle. destruct fuel' as [|fuel']; [lia|].
  simpl. rewrite Hq. apply IH; [exact Hdrain | lia].
Qed.

Lemma last_with_title_split (l1 l2 : list TestCase) (c : TestCase) :
  (∀ c', c' ∈ l2 → fullLabel c' ≠ fullLabel c) →
  last_with_title (fullLabel c) (l1 ++ c :: l2) = Some c.
Proof.
  intros Hl2. unfold last_with_title.
  rewrite filter_app, filter_cons, decide_True by reflexivity.
  assert (filter (λ c', fullLabel c' = fullLabel c) l2 = []) as ->.
  { induction l2 as [|x l2 IH]; [reflexivity|].
    rewrite filter_cons, decide_False by (apply Hl2; left).
    apply IH. intros c' Hc'. apply Hl2. now right. }
  apply last_snoc.
Qed.

(** C8. On every hierarchy the index builder comes to an end, with an
    empty work list. The nodes it has handled are the nodes of the
    hierarchy, where the children of a file node are those its refresh
    installs: every file node handled was refreshed and each of those
    children was handled, each child of any other container was handled,
    and every case handled has an entry under its full title. The entry
    under a title is the last case with that title handed to the map, so a
    later case overwrites an earlier one with the same title. *)
Theorem getPendingTestMap_spec (tests : list VSCodeTest) :
  ∃ b,
    (∀ fuel, queue_weight [tests] ≤ fuel → drain fuel (builder_init tests) = Some b) ∧
    getPendingTestMap tests = Some (titleMap b) ∧
    queue b = [] ∧
    visited b ≡ₚ concat (map nodes_below tests) ∧
    (∀ t, t ∈ tests → t ∈ visited b) ∧
    (∀ f ch d, FileNode f ch d ∈ visited b →
       FileNode f ch d ∈ refreshed b ∧ ∀ t, t ∈ d → t ∈ visited b) ∧
    (∀ ch, OtherNode ch ∈ visited b → ∀ t, t ∈ ch → t ∈ visited b) ∧
    set_calls b = direct_cases (visited b) ∧
    (∀ c, CaseNode c ∈ visited b →
       ∃ c', titleMap b !! fullLabel c = Some c' ∧ fullLabel c' = fullLabel c) ∧
    (∀ title, titleMap b !! title = last_with_title title (set_calls b)) ∧
    (∀ l1 c l2, set_calls b = l1 ++ c :: l2 →
       (∀ c', c' ∈ l2 → fullLabel c' ≠ fullLabel c) →
       titleMap b !! fullLabel c = Some c).
Proof.
  destruct (getPendingTestMap_trace_total tests) as (b & Hb & Hq & Hv & Hs & Hr & Hm).
  assert (∀ title, titleMap b !! title = last_with_title title (set_calls b)) as Hlast.
  { intros title. rewrite Hm, set_all_lookup, lookup_empty.
    now destruct (last_with_title title (set_calls b)). }
  assert (∀ x y, x ∈ visited b → y ∈ expanded_children x → y ∈ visited b) as Hclosed.
  { intros x y. rewrite !Hv. apply forest_closed. }
  exists b. repeat split.
  - intros fuel Hle. eapply drain_mono; [exact Hb | exact Hle].
  - unfold getPendingTestMap. now rewrite Hb.
  - exact Hq.
  - exact Hv.
  - intros t Ht. rewrite Hv. apply elem_of_forest. exists t.
    split; [exact Ht | apply nodes_below_self].
  - rewrite Hr. apply elem_of_direct_files. eauto.
  - intros t Ht. apply (Hclosed (FileNode f ch d)); [assumption | exact Ht].
  - intros ch Hin t Ht. apply (Hclosed (OtherNode ch)); [assumption | exact Ht].
  - exact Hs.
  - intros c Hc. rewrite Hlast.
    destruct (last_with_title_is_Some (set_calls b) c) as [c' Hc'].
    { rewrite Hs. now apply elem_of_direct_cases. }
    exists c'. split; [exact Hc'|]. now apply last_with_title_Some in Hc'.
  - exact Hlast.
  - intros l1 c l2 Hsplit Hl2. rewrite Hlast, Hsplit.
    now apply last_with_title_split.
Qed.

End BuilderFacts.

(** ** The run scanner, claim by claim *)

Section ScannerClaims.
Variable h : Host.

Lemma scanTestOutput_subscribed (out : OutputChannel) (req0 : TestRunOptions)
    (pending : gmap string TestCase) (cancelled : bool) :
  subscribed (scanTestOutput out req0 pending cancelled) = negb cancelled.
Proof. now destruct cancelled. Qed.

Lemma scan_settled_value (out : OutputChannel) (req0 : TestRunOptions)
    (pending : gmap string TestCase) (cancelled : bool) (inputs : list Input) :
  settled (deliver_all h (scanTestOutput out req0 pending cancelled) inputs) =
    if cancelled then Some Skipped else head (omap settles_with inputs).
Proof.
  destruct cancelled.
  - now rewrite deliver_all_unsubscribed.
  - now rewrite deliver_all_settled.
Qed.

(** C1. In every run, whatever the inputs, [setState] is called at most
    once on each case. A pass or fail event whose title is in the index
    removes the title; once a title is not in the index, any later pass
    or fail event with that title writes its log line and nothing else,
    so the calls on the run request stay as they were. *)
Theorem result_state_set_at_most_once (out : OutputChannel)
    (req_tests : list VSCodeTest) (pending : gmap string TestCase)
    (cancelled : bool) (inputs : list Input) :
  getPendingTestMap req_tests = Some pending →
  let st := deliver_all h (scanTestOutput out new_TestRunOptions pending cancelled) inputs in
  (∀ c, setState_count c st ≤ 1)
  ∧ (∀ evt title,
       event_title evt = Some title → subscribed st = true →
       is_Some (tests st !! title) →
       tests (deliver h st (Mocha evt)) !! title = None)
  ∧ (∀ evt title more,
       event_title evt = Some title → tests st !! title = None →
       let st' := deliver_all h st more in
       ∃ line,
         event_marker evt = Some line ∧
         deliver h st' (Mocha evt) = (if subscribed st' then log line st' else st') ∧
         req (deliver h st' (Mocha evt)) = req st' ∧
         tests (deliver h st' (Mocha evt)) = tests st').
Proof.
  intros Hpending st. split; [|split].
  - intros c.
    assert (at_most_once st) as [_ Hc].
    { apply at_most_once_deliver_all, at_most_once_scanTestOutput.
      eapply getPendingTestMap_keyed, Hpending. }
    specialize (Hc c). lia.
  - intros evt title Htitle Hsub _. simpl. rewrite Hsub.
    now apply onMochaEvent_removes.
  - intros evt title more Htitle Hnone st'.
    assert (tests st' !! title = None) as Hnone'
      by now apply deliver_all_tests_None.
    destruct (onMochaEvent_unknown st' evt title Htitle Hnone') as (line & Hline & Hev).
    exists line. split; [exact Hline|]. simpl.
    destruct (subscribed st'); rewrite ?Hev; auto.
Qed.

(** C2. The promise of a scan is settled by the first input that calls
    [resolve] and keeps that value: a cancellation and the end event both
    give [Skipped], a runner error gives [Errored], and a cancellation
    found on entry gives [Skipped] at once. The scanner is disposed when
    the promise settles, once, on each of these paths. *)
Theorem scan_settles_once (out : OutputChannel) (req0 : TestRunOptions)
    (pending : gmap string TestCase) (cancelled : bool) (inputs : list Input) :
  let st := deliver_all h (scanTestOutput out req0 pending cancelled) inputs in
  settled st = (if cancelled then Some Skipped else head (omap settles_with inputs))
  ∧ dispose_calls st = match settled st with Some _ => 1 | None => 0 end
  ∧ (∀ v more,
       settled st = Some v →
       settled (deliver_all h st more) = Some v ∧
       dispose_calls (deliver_all h st more) = 1)
  ∧ (settled st = None →
       (settled (deliver h st (Mocha MochaEnd)) = Some Skipped ∧
        dispose_calls (deliver h st (Mocha MochaEnd)) = 1)
       ∧ (settled (deliver h st CancellationRequested) = Some Skipped ∧
          dispose_calls (deliver h st CancellationRequested) = 1)
       ∧ ∀ e, settled (deliver h st (RunnerError e)) = Some Errored ∧
              dispose_calls (deliver h st (RunnerError e)) = 1).
Proof.
  intros st.
  assert (settled st = (if cancelled then Some Skipped else head (omap settles_with inputs))
          ∧ dispose_calls st = match settled st with Some _ => 1 | None => 0 end
          ∧ ∀ more, settled (deliver_all h st more) =
                      match settled st with
                      | Some v => Some v
                      | None => head (omap settles_with more)
                      end
                    ∧ dispose_calls (deliver_all h st more) =
                        match settled (deliver_all h st more) with
                        | Some _ => 1
                        | None => 0
                        end) as (Hset & Hdisp & Hmore).
  { subst st. destruct cancelled.
    - rewrite deliver_all_unsubscribed by reflexivity.
      repeat split; intros; now rewrite deliver_all_unsubscribed.
    - split; [apply (scan_settled_value _ _ _ false)|].
      split; [now apply deliver_all_dispose_calls|].
      intros more. split.
      + apply deliver_all_settled. now rewrite deliver_all_subscribed.
      + rewrite <- deliver_all_app. now apply deliver_all_dispose_calls. }
  split; [exact Hset|]. split; [exact Hdisp|]. split.
  - intros v more Hv. destruct (Hmore more) as [Hs Hd].
    rewrite Hv in Hs. now rewrite Hd, Hs.
  - intros Hnone.
    assert (∀ i v, settles_with i = Some v →
              settled (deliver h st i) = Some v ∧ dispose_calls (deliver h st i) = 1) as Hone.
    { intros i v Hi. destruct (Hmore [i]) as [Hs Hd]. simpl in Hs, Hd.
      rewrite Hnone, Hi in Hs. now rewrite Hd, Hs. }
    split; [now apply Hone|]. split; [now apply Hone|].
    intros e. now apply Hone.
Qed.

(** C6. When the cancellation is already requested on entry, the scanner
    is disposed, the scan is settled with the cancellation value, no
    handler is registered, and no input changes anything afterwards: no
    event is read. *)
Theorem cancelled_before_start (out : OutputChannel) (req0 : TestRunOptions)
    (pending : gmap string TestCase) (inputs : list Input) :
  let st0 := scanTestOutput out req0 pending true in
  dispose_calls st0 = 1
  ∧ settled st0 = Some Skipped
  ∧ subscribed st0 = false
  ∧ deliver_all h st0 inputs = st0
  ∧ outputChannel st0 = out ∧ req st0 = req0 ∧ tests st0 = pending.
Proof.
  simpl. repeat split. now apply deliver_all_unsubscribed.
Qed.

(** C9. A pass or fail event whose title is not in the index appends its
    log line and changes nothing else: the calls on the run request, the
    index, the settlement, the disposal count, the lookups in flight and
    the console are as before. The handler has no failing path. *)
Theorem unknown_title_only_logged (st : Scan) (evt : MochaEventTuple) (title : string) :
  event_title evt = Some title →
  tests st !! title = None →
  let st' := deliver h st (Mocha evt) in
  (∃ line, event_marker evt = Some line ∧
           st' = if subscribed st then log line st else st)
  ∧ req st' = req st ∧ tests st' = tests st ∧ settled st' = settled st
  ∧ dispose_calls st' = dispose_calls st ∧ inflight st' = inflight st
  ∧ console st' = console st ∧ subscribed st' = subscribed st
  ∧ show_calls (outputChannel st') = show_calls (outputChannel st).
Proof.
  intros Htitle Hnone st'.
  destruct (onMochaEvent_unknown st evt title Htitle Hnone) as (line & Hline & Hev).
  subst st'. simpl. rewrite Hev.
  split; [exists line; split; [exact Hline | reflexivity]|].
  destruct (subscribed st) eqn:Hsub; simpl; rewrite ?Hsub; repeat split; reflexivity.
Qed.

Lemma fallbacks_recorded_deliver (st : Scan) (i : Input) :
  fallbacks_recorded st → fallbacks_recorded (deliver h st i).
Proof.
  unfold fallbacks_recorded. intros Hinv.
  destruct i as [| e | str | [| info | info |] | k]; simpl;
    try (destruct (subscribed st); [|assumption]);
    unfold resolve; simpl; auto.
  - now destruct (settled st).
  - now destruct (settled st).
  - now destruct (tests st !! pass_fullTitle info).
  - destruct (tests st !! fullTitle info) as [tc|]; simpl; [|assumption].
    intros task Hin. apply elem_of_app in Hin as [Hin|Hin]; [now apply Hinv|].
    apply list_elem_of_singleton in Hin as ->. reflexivity.
  - now destruct (settled st).
  - destruct (inflight st !! k) as [task|] eqn:Hk; [|assumption].
    destruct (tryDeriveLocation h _) as [ws loc]. simpl.
    intros task' Hin. apply Hinv. eapply list_elem_of_delete_inv, Hin.
Qed.

Lemma fallbacks_recorded_deliver_all (st : Scan) (inputs : list Input) :
  fallbacks_recorded st → fallbacks_recorded (deliver_all h st inputs).
Proof.
  revert st. induction inputs as [|i inputs IH]; intros st Hinv; [exact Hinv|].
  rewrite deliver_all_cons. now apply IH, fallbacks_recorded_deliver.
Qed.

(** What the completion of a lookup does to the run request. *)
Lemma deliver_LocationDerived (st : Scan) (k : nat) (task : InFlight) :
  inflight st !! k = Some task →
  let st' := deliver h st (LocationDerived k) in
  let msg :=
    set_expectedOutput (JsValue_String (expected (if_info task)))
      (set_actualOutput (JsValue_String (actual (if_info task)))
         (set_location
            (default (if_testFirstLine task)
               (tryDeriveLocation h (stack_or_err (if_info task))).2)
            (new_TestMessage (tryMakeMarkdown (err (if_info task)))))) in
  appendMessage_calls (req st') = appendMessage_calls (req st) ++ [(if_tcase task, msg)]
  ∧ setState_calls (req st') =
      setState_calls (req st) ++ [(if_tcase task, Failed, duration (if_info task))]
  ∧ settled st' = settled st
  ∧ inflight st' = delete k (inflight st).
Proof.
  intros Hk. simpl. rewrite Hk.
  destruct (tryDeriveLocation h _) as [ws loc]. simpl. auto.
Qed.

(** C5. A fail event whose title is in the index starts a lookup that
    records the fallback location of the matched case: from the start of
    its declared range to column 100 of the same line. When a lookup
    completes with nothing (the text has no occurrence of the pattern, or
    the source map could not be loaded) the message attached to the case
    has a location, and it is that fallback. *)
Theorem fallback_location (out : OutputChannel) (pending : gmap string TestCase)
    (cancelled : bool) (inputs : list Input) :
  let st := deliver_all h (scanTestOutput out new_TestRunOptions pending cancelled) inputs in
  (∀ info tcase,
     subscribed st = true → tests st !! fullTitle info = Some tcase →
     inflight (deliver h st (Mocha (MochaFail info))) =
       inflight st ++
         [{| if_tcase := tcase; if_info := info;
             if_testFirstLine :=
               new_Location (tc_uri tcase)
                 (OfRange
                    (new_Range (range_start (tc_range tcase))
                       (new_Position (pos_line (range_start (tc_range tcase))) 100))) |}])
  ∧ (∀ k task,
       inflight st !! k = Some task →
       (tryDeriveLocation h (stack_or_err (if_info task))).2 = None →
       ∃ msg,
         appendMessage_calls (req (deliver h st (LocationDerived k))) =
           appendMessage_calls (req st) ++ [(if_tcase task, msg)] ∧
         location msg =
           Some (new_Location (tc_uri (if_tcase task))
                   (OfRange
                      (new_Range (range_start (tc_range (if_tcase task)))
                         (new_Position
                            (pos_line (range_start (tc_range (if_tcase task)))) 100)))))
  ∧ (∀ text, ¬ has_location_pattern text → (tryDeriveLocation h text).2 = None)
  ∧ (∀ text fileUri line col e,
       LocationRe.exec text = Some (fileUri, line, col) →
       load_source_map h fileUri = Throw e →
       (tryDeriveLocation h text).2 = None).
Proof.
  intros st. split; [|split; [|split]].
  - intros info tcase Hsub Htc. simpl. now rewrite Hsub, Htc.
  - intros k task Hk Hnone.
    assert (fallbacks_recorded st) as Hinv.
    { apply fallbacks_recorded_deliver_all. intros task' Hin.
      destruct cancelled; inversion Hin. }
    destruct (deliver_LocationDerived st k task Hk) as (Hmsg & _).
    eexists. split; [exact Hmsg|]. simpl. rewrite Hnone. simpl.
    rewrite (Hinv task) by (eapply list_elem_of_lookup_2, Hk). reflexivity.
  - intros text Hno. apply LocationReFacts.exec_None in Hno.
    unfold tryDeriveLocation. now rewrite Hno.
  - intros text fileUri line col e Hex Hload.
    unfold tryDeriveLocation. now rewrite Hex, Hload.
Qed.

(** C10. The callback that completes a failure is not guarded: whatever
    the state of the scan, settled or not, it appends the message and
    sets the case to [Failed]. So after a matched fail event followed by
    a cancellation, a runner error or the end event, the scan is settled
    with no state set yet, and the completion of the lookup still sets the
    case to [Failed]. *)
Theorem late_failure_mutates_case :
  (∀ st k task,
     inflight st !! k = Some task →
     let st' := deliver h st (LocationDerived k) in
     setState_calls (req st') =
       setState_calls (req st) ++ [(if_tcase task, Failed, duration (if_info task))]
     ∧ (∃ msg, appendMessage_calls (req st') =
                 appendMessage_calls (req st) ++ [(if_tcase task, msg)])
     ∧ settled st' = settled st)
  ∧ (∀ out pending info tcase terminal v,
       pending !! fullTitle info = Some tcase →
       settles_with terminal = Some v →
       let st1 :=
         deliver_all h (scanTestOutput out new_TestRunOptions pending false)
           [Mocha (MochaFail info); terminal] in
       settled st1 = Some v
       ∧ setState_calls (req st1) = []
       ∧ appendMessage_calls (req st1) = []
       ∧ setState_calls (req (deliver h st1 (LocationDerived 0))) =
           [(tcase, Failed, duration info)]
       ∧ ∃ msg, appendMessage_calls (req (deliver h st1 (LocationDerived 0))) =
                  [(tcase, msg)]).
Proof.
  split.
  - intros st k task Hk st'.
    destruct (deliver_LocationDerived st k task Hk) as (Hmsg & Hstate & Hset & _).
    split; [exact Hstate|]. split; [eauto | exact Hset].
  - intros out pending info tcase terminal v Htc Hterm st1.
    assert (inflight st1 !! 0 = Some {| if_tcase := tcase; if_info := info;
                                         if_testFirstLine := testFirstLine tcase |}
            ∧ settled st1 = Some v ∧ setState_calls (req st1) = []
            ∧ appendMessage_calls (req st1) = []) as (Hk & Hset & Hs & Hm).
    { subst st1. simpl. rewrite Htc. simpl.
      destruct terminal as [| e | str | [| i | i |] | k]; try discriminate;
        injection Hterm as <-; simpl; auto. }
    destruct (deliver_LocationDerived st1 0 _ Hk) as (Hmsg & Hstate & _).
    rewrite Hs in Hstate. rewrite Hm in Hmsg. simpl in Hstate, Hmsg.
    repeat split; eauto.
Qed.

End ScannerClaims.

(** ** Run coordinator *)

Section Coordinator.
Variable h : Host.

Lemma deliver_show_calls (st : Scan) (i : Input) :
  show_calls (outputChannel (deliver h st i)) = show_calls (outputChannel st).
Proof.
  destruct i as [| e | str | [| info | info |] | k]; simpl;
    try (destruct (subscribed st); [|reflexivity]);
    unfold resolve; simpl;
    repeat match goal with
           | |- context [match ?x with _ => _ end] => destruct x; simpl
           end; auto.
Qed.

Lemma deliver_all_show_calls (st : Scan) (inputs : list Input) :
  show_calls (outputChannel (deliver_all h st inputs)) = show_calls (outputChannel st).
Proof.
  revert st. induction inputs as [|i inputs IH]; intros st; [reflexivity|].
  now rewrite deliver_all_cons, IH, deliver_show_calls.
Qed.

Lemma after_scan_show_calls (outcome : TestResultState) (ch : OutputChannel) :
  show_calls (after_scan outcome ch) =
    if TestResultState_eqb outcome Skipped then show_calls ch else S (show_calls ch).
Proof. unfold after_scan. now destruct outcome. Qed.

Lemma TestResultState_eqb_eq (a b : TestResultState) :
  TestResultState_eqb a b = true ↔ a = b.
Proof. destruct a, b; simpl; split; congruence. Qed.

(** C7. Once the scan has settled, the coordinator shows the log exactly
    when the outcome is not [Skipped]. Every run returns; its outcome is
    that of the first input that settles the scan, so the log is shown
    when that input is a runner error and is not shown when it is the end
    event, whatever failures came before it, or a cancellation. *)
Theorem log_shown_unless_skipped :
  (∀ outcome ch,
     (show_calls (after_scan outcome ch) = S (show_calls ch) ↔ outcome ≠ Skipped)
     ∧ (show_calls (after_scan outcome ch) = show_calls ch ↔ outcome = Skipped)
     ∧ lines (after_scan outcome ch) = lines ch)
  ∧ (∀ now out req_tests cancelled inputs,
       ∃ st,
         runTests h now out req_tests cancelled inputs = Some st ∧
         settled st =
           (if cancelled then Some Skipped else head (omap settles_with inputs)) ∧
         show_calls (outputChannel st) =
           match settled st with
           | Some Skipped | None => show_calls out
           | Some _ => S (show_calls out)
           end)
  ∧ (∀ now out req_tests before e after,
       Forall (λ i, settles_with i = None) before →
       ∃ st,
         runTests h now out req_tests false (before ++ RunnerError e :: after) = Some st ∧
         settled st = Some Errored ∧
         show_calls (outputChannel st) = S (show_calls out))
  ∧ (∀ now out req_tests before after,
       Forall (λ i, settles_with i = None) before →
       ∃ st,
         runTests h now out req_tests false (before ++ Mocha MochaEnd :: after) = Some st ∧
         settled st = Some Skipped ∧
         show_calls (outputChannel st) = show_calls out).
Proof.
  assert (∀ now out req_tests cancelled inputs,
       ∃ st,
         runTests h now out req_tests cancelled inputs = Some st ∧
         settled st =
           (if cancelled then Some Skipped else head (omap settles_with inputs)) ∧
         show_calls (outputChannel st) =
           match settled st with
           | Some Skipped | None => show_calls out
           | Some _ => S (show_calls out)
           end) as Hrun.
  { intros now out req_tests cancelled inputs. unfold runTests.
    unfold getPendingTestMap.
    destruct (getPendingTestMap_trace_total req_tests) as (b & -> & _). simpl.
    set (out' := appendLine _ _).
    set (st := deliver_all h _ inputs).
    pose proof (scan_settled_value h out' new_TestRunOptions (titleMap b) cancelled inputs)
      as Hset. fold st in Hset.
    assert (show_calls (outputChannel st) = show_calls out) as Hshow.
    { subst st. rewrite deliver_all_show_calls. now destruct cancelled. }
    eexists. split; [reflexivity|].
    destruct (settled st) as [o|] eqn:Ho; simpl; rewrite ?Ho.
    - split; [exact Hset|]. rewrite after_scan_show_calls, Hshow. now destruct o.
    - split; [exact Hset | exact Hshow]. }
  assert (∀ before i after v,
            Forall (λ i, settles_with i = None) before → settles_with i = Some v →
            head (omap settles_with (before ++ i :: after)) = Some v) as Hfirst.
  { intros before i after v Hbefore Hi.
    induction Hbefore as [|x before Hx _ IH]; simpl; [now rewrite Hi | now rewrite Hx]. }
  split; [|split; [exact Hrun | split]].
  - intros outcome ch. rewrite after_scan_show_calls.
    repeat split; destruct outcome; simpl; try congruence; try lia; reflexivity.
  - intros now out req_tests before e after Hbefore.
    destruct (Hrun now out req_tests false (before ++ RunnerError e :: after))
      as (st & Hst & Hset & Hshow).
    rewrite (Hfirst before (RunnerError e) after Errored Hbefore eq_refl) in Hset.
    exists st. rewrite Hset in Hshow. auto.
  - intros now out req_tests before after Hbefore.
    destruct (Hrun now out req_tests false (before ++ Mocha MochaEnd :: after))
      as (st & Hst & Hset & Hshow).
    rewrite (Hfirst before (Mocha MochaEnd) after Skipped Hbefore eq_refl) in Hset.
    exists st. rewrite Hset in Hshow. auto.
Qed.

End Coordinator.

(** ** The sample run *)

Section SampleRun.
Import Sample.

Example hierarchy_index : getPendingTestMap hierarchy = Some pending.
Proof. vm_compute. reflexivity. Qed.

Example duplicate_title_last_wins :
  getPendingTestMap hierarchy_with_duplicate = Some pending.
Proof. vm_compute. reflexivity. Qed.

Example resolve_through_source_map :
  tryDeriveLocation host "    at run (file:///out/a.js:5:3)" =
    ([], Some (new_Location (Uri_parse "file:///src/a.ts")
                 (OfPosition (new_Position 14 2)))).
Proof. vm_compute. reflexivity. Qed.

Example resolve_without_source_map :
  tryDeriveLocation host "file:///a.js:5:3" =
    (["Error parsing sourcemap for file:///a.js: ENOENT"], None).
Proof. vm_compute. reflexivity. Qed.

Example scenarioA_outcome :
  let st := deliver_all host idle scenarioA in
  setState_calls (req st) = [(caseA, Passed, 12%Z); (caseB, Failed, 7%Z)]
  ∧ fmap (λ m, (m.1, message m.2, location m.2)) (appendMessage_calls (req st)) =
      [(caseB,
        MarkdownString
          ("AssertionError" +:+ String JsString.newline
             ("```diff" +:+ String JsString.newline
                ("- expected: 2" +:+ String JsString.newline "```"))),
        Some (new_Location (Uri_parse "file:///src/suite.test.ts")
                (OfRange (new_Range (new_Position 7 2) (new_Position 7 100)))))]
  ∧ tests st = ∅
  ∧ settled st = Some Skipped
  ∧ dispose_calls st = 1
  ∧ console st = ["Error parsing sourcemap for file:///a.js: ENOENT"].
Proof. vm_compute. repeat split; reflexivity. Qed.

(** A run that ends with a failure reported does not bring the log to the
    front. *)
Example scenarioA_log_stays_hidden :
  (λ st, (settled st, show_calls (outputChannel st), length (lines (outputChannel st))))
    <$> runTests host "now" channel hierarchy false scenarioA
  = Some (Some Skipped, 0, 6).
Proof. vm_compute. reflexivity. Qed.

Example runner_error_shows_log :
  (λ st, (settled st, show_calls (outputChannel st)))
    <$> runTests host "now" channel hierarchy false [RunnerError "spawn failed"]
  = Some (Some Errored, 1).
Proof. vm_compute. reflexivity. Qed.

End SampleRun.

(** ** Instances of the conditional statements *)

Lemma result_state_set_at_most_once_witness :
  getPendingTestMap Sample.hierarchy = Some Sample.pending
  ∧ ∀ c, setState_count c (deliver_all Sample.host Sample.idle Sample.scenarioA) ≤ 1.
Proof.
  assert (getPendingTestMap Sample.hierarchy = Some Sample.pending) as Hpending
    by (vm_compute; reflexivity).
  split; [exact Hpending|].
  exact (proj1 (result_state_set_at_most_once Sample.host Sample.channel
                  Sample.hierarchy Sample.pending false Sample.scenarioA Hpending)).
Defined.

Lemma unknown_title_only_logged_witness :
  event_title (MochaPass {| pass_fullTitle := "suite > ghost"; pass_duration := 3 |})
    = Some "suite > ghost"
  ∧ tests Sample.idle !! "suite > ghost" = None
  ∧ req (deliver Sample.host Sample.idle
           (Mocha (MochaPass {| pass_fullTitle := "suite > ghost"; pass_duration := 3 |})))
    = req Sample.idle
  ∧ tests (deliver Sample.host Sample.idle
             (Mocha (MochaPass {| pass_fullTitle := "suite > ghost"; pass_duration := 3 |})))
    = tests Sample.idle.
Proof.
  assert (event_title (MochaPass {| pass_fullTitle := "suite > ghost"; pass_duration := 3 |})
          = Some "suite > ghost") as Htitle by reflexivity.
  assert (tests Sample.idle !! "suite > ghost" = None) as Hnone
    by (vm_compute; reflexivity).
  split; [exact Htitle|]. split; [exact Hnone|].
  pose proof (unknown_title_only_logged Sample.host Sample.idle _
                "suite > ghost" Htitle Hnone) as (_ & Hreq & Htests & _).
  split; [exact Hreq | exact Htests].
Defined.

(** * Further properties *)

(** ** Run scanner: what every run keeps *)

Section ScannerInvariants.
Variable h : Host.

(** *** The index after a run *)

Lemma deliver_tests_lookup (st : Scan) (i : Input) (title : string) :
  subscribed st = true →
  tests (deliver h st i) !! title =
    if mentions title i then None else tests st !! title.
Proof.
  intros Hsub. destruct i as [| e | str | [| info | info |] | k]; simpl; rewrite ?Hsub;
    unfold resolve; simpl.
  - now destruct (settled st).
  - now destruct (settled st).
  - reflexivity.
  - reflexivity.
  - case_bool_decide as Ht.
    + injection Ht as ->.
      destruct (tests st !! title) eqn:E; simpl; [apply lookup_delete_eq | exact E].
    + destruct (tests st !! pass_fullTitle info); simpl; [|reflexivity].
      apply lookup_delete_ne. congruence.
  - case_bool_decide as Ht.
    + injection Ht as ->.
      destruct (tests st !! title) eqn:E; simpl; [apply lookup_delete_eq | exact E].
    + destruct (tests st !! fullTitle info); simpl; [|reflexivity].
      apply lookup_delete_ne. congruence.
  - now destruct (settled st).
  - destruct (inflight st !! k); [|reflexivity].
    now destruct (tryDeriveLocation h _).
Qed.

(** X1. While the handlers are registered, the index after any inputs
    is the index before without the titles that some pass or fail event
    carried: such a title is gone, every other entry is untouched. *)
Theorem index_after_inputs (st : Scan) (inputs : list Input) (title : string) :
  subscribed st = true →
  tests (deliver_all h st inputs) !! title =
    if existsb (mentions title) inputs then None else tests st !! title.
Proof.
  revert st. induction inputs as [|i inputs IH]; intros st Hsub; [reflexivity|].
  rewrite deliver_all_cons. simpl existsb.
  rewrite IH by now rewrite deliver_subscribed.
  rewrite deliver_tests_lookup by assumption.
  destruct (mentions title i); simpl; [now destruct (existsb _ _) | reflexivity].
Qed.

Lemma deliver_tests_subseteq (st : Scan) (i : Input) :
  tests (deliver h st i) ⊆ tests st.
Proof.
  apply map_subseteq_spec. intros title c Hl.
  destruct (tests st !! title) as [c'|] eqn:E.
  - destruct (subscribed st) eqn:Hsub.
    + rewrite deliver_tests_lookup in Hl by assumption.
      destruct (mentions title i); congruence.
    + destruct i as [| e | str | evt | k]; simpl in Hl; rewrite ?Hsub in Hl;
        try congruence.
      destruct (inflight st !! k); [|congruence].
      destruct (tryDeriveLocation h _). simpl in Hl. congruence.
  - apply (deliver_tests_None h st i) in E. congruence.
Qed.

Lemma keyed_by_label_subseteq (m1 m2 : gmap string TestCase) :
  m1 ⊆ m2 → keyed_by_label m2 → keyed_by_label m1.
Proof.
  intros Hsub Hk title c Hl. apply (Hk title c).
  eapply map_subseteq_spec; eauto.
Qed.

(** *** Append-only logs *)

Lemma deliver_append_only (st : Scan) (i : Input) :
  setState_calls (req st) `prefix_of` setState_calls (req (deliver h st i))
  ∧ appendMessage_calls (req st) `prefix_of` appendMessage_calls (req (deliver h st i))
  ∧ lines (outputChannel st) `prefix_of` lines (outputChannel (deliver h st i))
  ∧ console st `prefix_of` console (deliver h st i).
Proof.
  destruct i as [| e | str | [| info | info |] | k]; simpl;
    try (destruct (subscribed st); [|done]);
    unfold resolve; simpl;
    repeat match goal with
           | |- context [match ?x with _ => _ end] => destruct x; simpl
           end;
    repeat split; try reflexivity; try apply prefix_app_r; try reflexivity.
Qed.

Lemma deliver_all_append_only (st : Scan) (inputs : list Input) :
  setState_calls (req st) `prefix_of` setState_calls (req (deliver_all h st inputs))
  ∧ appendMessage_calls (req st)
      `prefix_of` appendMessage_calls (req (deliver_all h st inputs))
  ∧ lines (outputChannel st) `prefix_of` lines (outputChannel (deliver_all h st inputs))
  ∧ console st `prefix_of` console (deliver_all h st inputs).
Proof.
  revert st. induction inputs as [|i inputs IH]; intros st; [done|].
  rewrite deliver_all_cons.
  destruct (deliver_append_only st i) as (H1 & H2 & H3 & H4).
  destruct (IH (deliver h st i)) as (IH1 & IH2 & IH3 & IH4).
  repeat split; etrans; eauto.
Qed.

(** *** Every case is accounted for *)

Lemma total_count_resolve (v : TestResultState) (st : Scan) (c : TestCase) :
  total_count c (resolve v st) = total_count c st.
Proof. unfold resolve. now destruct (settled st). Qed.

Lemma total_count_onMochaEvent (evt : MochaEventTuple) (st : Scan) (c : TestCase) :
  keyed_by_label (tests st) →
  total_count c (onMochaEvent evt st) = total_count c st.
Proof.
  intros Hk. destruct evt as [| info | info |]; simpl.
  - reflexivity.
  - destruct (tests st !! pass_fullTitle info) as [tc|] eqn:Htc; [|reflexivity].
    unfold total_count. rewrite (pending_count_delete st _ tc c Hk Htc).
    unfold setState_count, inflight_count, pending_count. simpl.
    rewrite count_snoc. simpl. lia.
  - destruct (tests st !! fullTitle info) as [tc|] eqn:Htc; [|reflexivity].
    unfold total_count. rewrite (pending_count_delete st _ tc c Hk Htc).
    unfold setState_count, inflight_count, pending_count. simpl.
    rewrite count_snoc. simpl. lia.
  - apply total_count_resolve.
Qed.

Lemma total_count_deliver (st : Scan) (i : Input) (c : TestCase) :
  keyed_by_label (tests st) →
  total_count c (deliver h st i) = total_count c st.
Proof.
  intros Hk. destruct i as [| e | str | evt | k]; simpl;
    try (destruct (subscribed st); [|reflexivity]).
  - apply total_count_resolve.
  - now rewrite total_count_resolve.
  - reflexivity.
  - now apply total_count_onMochaEvent.
  - destruct (inflight st !! k) as [task|] eqn:Hin; [|reflexivity].
    destruct (tryDeriveLocation h _) as [ws loc].
    unfold total_count, setState_count, inflight_count, pending_count. simpl.
    rewrite (count_delete (λ task, if_tcase task = c) (inflight st) k task Hin).
    rewrite count_snoc. simpl. lia.
Qed.

Lemma total_count_deliver_all (st : Scan) (inputs : list Input) (c : TestCase) :
  keyed_by_label (tests st) →
  total_count c (deliver_all h st inputs) = total_count c st.
Proof.
  revert st. induction inputs as [|i inputs IH]; intros st Hk; [reflexivity|].
  rewrite deliver_all_cons, IH; [now apply total_count_deliver|].
  eapply keyed_by_label_subseteq; [apply deliver_tests_subseteq | exact Hk].
Qed.

(** X3. In a run over an index filed by title, a case of the index
    is at every moment in exactly one place: still in the index, waiting
    for its location, or with [setState] called on it once. A case that
    is not in the index is in none of them. *)
Theorem case_accounted_for (out : OutputChannel) (pending : gmap string TestCase)
    (cancelled : bool) (inputs : list Input) (c : TestCase) :
  keyed_by_label pending →
  let st := deliver_all h (scanTestOutput out new_TestRunOptions pending cancelled) inputs in
  setState_count c st + inflight_count c st + pending_count c st =
    if decide (pending !! fullLabel c = Some c) then 1 else 0.
Proof.
  intros Hk st. fold (total_count c st). subst st.
  rewrite total_count_deliver_all by now destruct cancelled.
  unfold total_count, setState_count, inflight_count, pending_count.
  now destruct cancelled.
Qed.

(** *** Calls are made on cases of the index only *)

Lemma calls_within_deliver (pending : gmap string TestCase) (st : Scan) (i : Input) :
  keyed_by_label pending →
  calls_within pending st → calls_within pending (deliver h st i).
Proof.
  intros Hk (Hsub & Hfl & Hset & Hmsg).
  assert (∀ title c, tests st !! title = Some c → pending !! fullLabel c = Some c) as Hin.
  { intros title c Hl. eapply map_subseteq_spec in Hl; [|exact Hsub].
    now rewrite (Hk _ _ Hl). }
  split; [etrans; [apply deliver_tests_subseteq | exact Hsub]|].
  destruct i as [| e | str | [| info | info |] | k]; simpl;
    try (destruct (subscribed st); [|done]);
    unfold resolve; simpl.
  - now destruct (settled st).
  - now destruct (settled st).
  - done.
  - done.
  - destruct (tests st !! pass_fullTitle info) as [tc|] eqn:Htc; simpl; [|done].
    split; [exact Hfl|]. split; [|exact Hmsg].
    intros c s d Hc. apply elem_of_app in Hc as [Hc|Hc]; [now apply (Hset c s d)|].
    apply list_elem_of_singleton in Hc. injection Hc as -> -> ->. eauto.
  - destruct (tests st !! fullTitle info) as [tc|] eqn:Htc; simpl; [|done].
    split; [|split; [exact Hset | exact Hmsg]].
    intros task Ht. apply elem_of_app in Ht as [Ht|Ht]; [now apply Hfl|].
    apply list_elem_of_singleton in Ht as ->. simpl. eauto.
  - now destruct (settled st).
  - destruct (inflight st !! k) as [task|] eqn:Hk'; [|done].
    destruct (tryDeriveLocation h _) as [ws loc]. simpl.
    pose proof (Hfl task (list_elem_of_lookup_2 _ _ _ Hk')) as Htask.
    split; [|split].
    + intros task' Ht. apply Hfl. eapply list_elem_of_delete_inv, Ht.
    + intros c s d Hc. apply elem_of_app in Hc as [Hc|Hc]; [now apply (Hset c s d)|].
      apply list_elem_of_singleton in Hc. injection Hc as -> -> ->. auto.
    + intros c m Hc. apply elem_of_app in Hc as [Hc|Hc]; [now apply (Hmsg c m)|].
      apply list_elem_of_singleton in Hc. now injection Hc as -> ->.
Qed.

(** X4. A run over an index filed by title only ever touches cases
    of that index: the index it is left with is part of the one it got,
    every call of [setState] and [appendMessage] is on a case of the
    index, and the only states it sets are [Passed] and [Failed]. *)
Theorem run_stays_within_index (out : OutputChannel) (pending : gmap string TestCase)
    (cancelled : bool) (inputs : list Input) :
  keyed_by_label pending →
  let st := deliver_all h (scanTestOutput out new_TestRunOptions pending cancelled) inputs in
  tests st ⊆ pending
  ∧ (∀ c s d, (c, s, d) ∈ setState_calls (req st) →
       pending !! fullLabel c = Some c ∧ (s = Passed ∨ s = Failed))
  ∧ (∀ c m, (c, m) ∈ appendMessage_calls (req st) → pending !! fullLabel c = Some c).
Proof.
  intros Hk st.
  assert (calls_within pending st) as (H1 & _ & H2 & H3); [|auto].
  subst st.
  assert (calls_within pending (scanTestOutput out new_TestRunOptions pending cancelled)) as H0.
  { destruct cancelled; (split; [done|]); (split; [|split]); simpl;
      intros; match goal with H : _ ∈ [] |- _ => inversion H end. }
  revert H0. generalize (scanTestOutput out new_TestRunOptions pending cancelled).
  induction inputs as [|i inputs IH]; intros st0 H0; [exact H0|].
  rewrite deliver_all_cons. now apply IH, calls_within_deliver.
Qed.

(** *** One message for each failure *)

Lemma messages_match_failures_deliver (st : Scan) (i : Input) :
  messages_match_failures st → messages_match_failures (deliver h st i).
Proof.
  intros [Horder Hfields].
  destruct i as [| e | str | [| info | info |] | k]; simpl;
    try (destruct (subscribed st); [|done]);
    unfold resolve; simpl.
  - now destruct (settled st).
  - now destruct (settled st).
  - done.
  - done.
  - destruct (tests st !! pass_fullTitle info) as [tc|]; simpl; [|done].
    split; [|exact Hfields]. simpl.
    unfold cases_set_to in *. simpl. rewrite omap_app. simpl.
    now rewrite app_nil_r.
  - now destruct (tests st !! fullTitle info).
  - now destruct (settled st).
  - destruct (inflight st !! k) as [task|]; [|done].
    destruct (tryDeriveLocation h _) as [ws loc].
    unfold messages_match_failures, onLocation, cases_set_to in *. simpl. split.
    + rewrite fmap_app, omap_app. simpl. f_equal. exact Horder.
    + intros c m Hc. apply elem_of_app in Hc as [Hc|Hc]; [now apply (Hfields c m)|].
      apply list_elem_of_singleton in Hc. injection Hc as -> ->. simpl. eauto.
Qed.

(** X5. In every run the cases that got a message are, in order,
    the cases that were set to [Failed]: a failure never goes without its
    message, a [Passed] call never brings one, and every message has its
    location and its actual and expected output assigned. *)
Theorem one_message_per_failure (out : OutputChannel) (pending : gmap string TestCase)
    (cancelled : bool) (inputs : list Input) :
  let st := deliver_all h (scanTestOutput out new_TestRunOptions pending cancelled) inputs in
  (appendMessage_calls (req st)).*1 = cases_set_to Failed (req st)
  ∧ ∀ c m, (c, m) ∈ appendMessage_calls (req st) →
      is_Some (location m) ∧ is_Some (actualOutput m) ∧ is_Some (expectedOutput m).
Proof.
  intros st. change (messages_match_failures st). subst st.
  assert (messages_match_failures (scanTestOutput out new_TestRunOptions pending cancelled))
    as H0.
  { destruct cancelled; split; simpl; try done; intros c m Hc; inversion Hc. }
  revert H0. generalize (scanTestOutput out new_TestRunOptions pending cancelled).
  induction inputs as [|i inputs IH]; intros st0 H0; [exact H0|].
  rewrite deliver_all_cons. now apply IH, messages_match_failures_deliver.
Qed.

(** *** Lookups may complete in any order *)

Lemma deliver_LocationDerived_eq (st : Scan) (k : nat) (task : InFlight) :
  inflight st !! k = Some task →
  deliver h st (LocationDerived k) =
    onLocation task (tryDeriveLocation h (stack_or_err (if_info task))).2
      (warn (tryDeriveLocation h (stack_or_err (if_info task))).1
         (with_inflight (delete k (inflight st)) st)).
Proof.
  intros Hk. simpl. rewrite Hk. now destruct (tryDeriveLocation h _).
Qed.

Lemma delete_delete_le {A} (l : list A) (j k : nat) :
  j ≤ k → delete k (delete j l) = delete j (delete (S k) l).
Proof.
  revert j k. induction l as [|x l IH]; intros j k Hle; [now destruct j, k|].
  destruct j as [|j]; [reflexivity|].
  destruct k as [|k]; [lia|].
  change (x :: delete k (delete j l) = x :: delete j (delete (S k) l)).
  f_equal. apply IH. lia.
Qed.

(** X6. Two lookups in flight may complete in either order. The
    index, the lookups left, the settlement and the disposal count come
    out the same; the calls and the lines written are the same up to
    order; and when the two failures are of different cases, each case
    sees the same calls of [setState] in the same order. *)
Theorem completions_commute (st : Scan) (j k : nat) (tj tk : InFlight) :
  j ≤ k →
  inflight st !! j = Some tj →
  inflight st !! S k = Some tk →
  let s1 := deliver h (deliver h st (LocationDerived j)) (LocationDerived k) in
  let s2 := deliver h (deliver h st (LocationDerived (S k))) (LocationDerived j) in
  tests s1 = tests s2 ∧ inflight s1 = inflight s2 ∧ settled s1 = settled s2
  ∧ dispose_calls s1 = dispose_calls s2
  ∧ setState_calls (req s1) ≡ₚ setState_calls (req s2)
  ∧ appendMessage_calls (req s1) ≡ₚ appendMessage_calls (req s2)
  ∧ lines (outputChannel s1) ≡ₚ lines (outputChannel s2)
  ∧ console s1 ≡ₚ console s2
  ∧ (if_tcase tj ≠ if_tcase tk →
     ∀ c, filter (λ call : TestCase * TestResultState * Z, call.1.1 = c)
            (setState_calls (req s1))
          = filter (λ call : TestCase * TestResultState * Z, call.1.1 = c)
              (setState_calls (req s2))).
Proof.
  intros Hle Hj Hk s1 s2.
  assert (inflight (deliver h st (LocationDerived j)) !! k = Some tk) as Hk1.
  { rewrite (deliver_LocationDerived_eq st j tj Hj). simpl.
    now rewrite list_lookup_delete_ge. }
  assert (inflight (deliver h st (LocationDerived (S k))) !! j = Some tj) as Hj2.
  { rewrite (deliver_LocationDerived_eq st (S k) tk Hk). simpl.
    rewrite list_lookup_delete_lt by lia. exact Hj. }
  subst s1 s2.
  rewrite (deliver_LocationDerived_eq _ k tk Hk1), (deliver_LocationDerived_eq _ j tj Hj2).
  rewrite (deliver_LocationDerived_eq st j tj Hj), (deliver_LocationDerived_eq st (S k) tk Hk).
  simpl. rewrite delete_delete_le by exact Hle.
  repeat split.
  - rewrite <- !app_assoc. apply Permutation_app_head, Permutation_swap.
  - rewrite <- !app_assoc. apply Permutation_app_head, Permutation_swap.
  - rewrite <- !app_assoc. apply Permutation_app_head, Permutation_swap.
  - rewrite <- !app_assoc. apply Permutation_app_head, Permutation_app_comm.
  - intros Hne c. rewrite !filter_app, !filter_cons, !filter_nil. simpl.
    destruct (decide (if_tcase tj = c)), (decide (if_tcase tk = c));
      rewrite ?app_nil_r; try reflexivity. congruence.
Qed.

End ScannerInvariants.

(** ** Diagnostic formatter: lines in, lines out *)

Section FormatterLines.
Import JsString JsStringFacts.

Lemma split_unfold (c : ascii) (s : string) :
  split (String c s) =
    if Ascii.eqb c newline then EmptyString :: split s
    else match split s with
         | h :: t => String c h :: t
         | [] => [String c EmptyString]
         end.
Proof. reflexivity. Qed.

(** A prefix without a line break stays on the first line. *)
Lemma split_append (p b : string) :
  no_newline p →
  split (p +:+ b) = match split b with
                    | h :: t => (p +:+ h) :: t
                    | [] => [p]
                    end.
Proof.
  unfold no_newline. induction p as [|c p IH]; intros Hp.
  - rewrite append_nil_l. pose proof (split_nonempty b). now destruct (split b).
  - simpl in Hp. apply andb_true_iff in Hp as [Hc Hp].
    rewrite append_cons, split_unfold, (IH Hp).
    apply negb_true_iff in Hc. rewrite Hc.
    pose proof (split_nonempty b). now destruct (split b).
Qed.

Lemma split_line (l : string) : no_newline l → split l = [l].
Proof.
  intros Hl. rewrite <- (append_nil_r l) at 1. rewrite (split_append l "" Hl).
  simpl. now rewrite append_nil_r.
Qed.

Lemma join_cons (l : string) (ls : list string) :
  ls ≠ [] → join (l :: ls) = l +:+ String newline (join ls).
Proof. now destruct ls. Qed.

(** Joining lines and splitting again gives the lines back. *)
Lemma split_join (ls : list string) :
  ls ≠ [] → Forall no_newline ls → split (join ls) = ls.
Proof.
  induction ls as [|l ls IH]; [done|]. intros _ Hall.
  apply Forall_cons in Hall as [Hl Hall].
  destruct ls as [|l2 ls]; [now apply split_line|].
  rewrite join_cons by done. rewrite (split_append _ _ Hl), split_unfold.
  simpl (Ascii.eqb newline newline). cbv iota.
  rewrite IH by done. now rewrite append_nil_r.
Qed.

Lemma split_lines_no_newline (s : string) : Forall no_newline (split s).
Proof.
  induction s as [|c s IH]; [repeat constructor|].
  rewrite split_unfold. destruct (Ascii.eqb c newline) eqn:Hc.
  - constructor; [reflexivity | exact IH].
  - pose proof (split_nonempty s). destruct (split s) as [|hd tl]; [done|].
    apply Forall_cons in IH as [Hh Ht]. constructor; [|exact Ht].
    unfold no_newline in *. simpl. now rewrite Hc, Hh.
Qed.

Lemma contains_trans (a b c : string) : contains a b → contains b c → contains a c.
Proof.
  intros (x & y & ->) (x' & y' & ->). exists (x' +:+ x), (y +:+ y').
  now rewrite !append_assoc.
Qed.

Lemma contains_join (l : string) (ls : list string) : l ∈ ls → contains l (join ls).
Proof.
  induction ls as [|x ls IH]; intros Hin; [inversion Hin|].
  destruct ls as [|x2 ls].
  - apply list_elem_of_singleton in Hin as ->. exists "", "".
    now rewrite append_nil_l, append_nil_r.
  - rewrite join_cons by done. apply elem_of_cons in Hin as [->|Hin].
    + exists "", (String newline (join (x2 :: ls))). now rewrite append_nil_l.
    + destruct (IH Hin) as (a & b & ->).
      exists (x +:+ String newline a), b. now rewrite !append_assoc, append_cons.
Qed.

(** A string without a line break that occurs in a text occurs in one of
    its lines. *)
Lemma contains_line (pat m : string) :
  no_newline pat → contains pat m → ∃ l, l ∈ split m ∧ contains pat l.
Proof.
  intros Hpat (a & b & ->). induction a as [|c a IH].
  - rewrite append_nil_l, (split_append pat b Hpat).
    pose proof (split_nonempty b). destruct (split b) as [|hd tl]; [done|].
    exists (pat +:+ hd). split; [left|]. exists "", hd. now rewrite append_nil_l.
  - destruct IH as (l & Hl & Hc). rewrite append_cons, split_unfold.
    destruct (Ascii.eqb c newline).
    + exists l. split; [now right | exact Hc].
    + pose proof (split_nonempty (a +:+ pat +:+ b)).
      destruct (split (a +:+ pat +:+ b)) as [|hd tl]; [done|].
      apply elem_of_cons in Hl as [->|Hl].
      * exists (String c hd). split; [left|].
        destruct Hc as (x & y & ->). exists (String c x), y. now rewrite append_cons.
      * exists l. split; [now right | exact Hc].
Qed.

Lemma contains_in_lines (pat m : string) :
  no_newline pat → (contains pat m ↔ ∃ l, l ∈ split m ∧ contains pat l).
Proof.
  intros Hpat. split; [now apply contains_line|].
  intros (l & Hl & Hc). eapply contains_trans; [exact Hc|].
  rewrite <- (join_split m). now apply contains_join.
Qed.

Lemma marker_line_or_none (m : string) :
  (∃ l, l ∈ split m ∧ contains diff_marker l)
  ∨ (∀ l, l ∈ split m → ¬ contains diff_marker l).
Proof.
  destruct (findIndex (includes diff_marker) (split m)) as [i|] eqn:Hi.
  - left. apply findIndex_Some in Hi as (pre & x & post & Hsplit & _ & _ & Hx).
    exists x. split; [|now apply includes_spec].
    rewrite Hsplit. apply elem_of_app. right. left.
  - right. intros l Hl. apply includes_false. rewrite findIndex_None in Hi. auto.
Qed.

(** X7. Whether a message is reformatted depends on the message as a
    whole: it comes back unchanged, as plain text, exactly when [+ actual]
    occurs nowhere in it, and as markup exactly when it occurs. *)
Theorem tryMakeMarkdown_plain_iff (m : string) :
  (tryMakeMarkdown m = PlainText m ↔ ¬ contains diff_marker m)
  ∧ ((∃ v, tryMakeMarkdown m = MarkdownString v) ↔ contains diff_marker m).
Proof.
  assert (no_newline diff_marker) as Hpat by reflexivity.
  split.
  - rewrite (contains_in_lines _ _ Hpat). split.
    + intros Hplain (l & Hl & Hc).
      destruct (tryMakeMarkdown_marker m) as (pre & x & post & _ & _ & _ & Hmd);
        [eauto | congruence].
    + intros Hno. apply tryMakeMarkdown_no_marker. intros l Hl Hc. apply Hno. eauto.
  - rewrite (contains_in_lines _ _ Hpat). split.
    + intros (v & Hv).
      destruct (marker_line_or_none m) as [Hyes|Hno]; [exact Hyes|].
      rewrite tryMakeMarkdown_no_marker in Hv by exact Hno. discriminate.
    + intros Hyes.
      destruct (tryMakeMarkdown_marker m Hyes) as (pre & x & post & _ & _ & _ & Hmd).
      eauto.
Qed.

Lemma findIndex_middle {A} (p : A → bool) (pre post : list A) (x : A) :
  (∀ y, y ∈ pre → p y = false) → p x = true →
  findIndex p (pre ++ x :: post) = Some (length pre).
Proof.
  intros Hpre Hx. induction pre as [|y pre IH]; simpl; [now rewrite Hx|].
  rewrite (Hpre y) by left. rewrite IH; [reflexivity|].
  intros z Hz. apply Hpre. now right.
Qed.

(** Formatting a message given as its lines. *)
Lemma tryMakeMarkdown_of_lines (pre post : list string) (l : string) :
  Forall no_newline pre → Forall no_newline post → no_newline l →
  (∀ x, x ∈ pre → ¬ contains diff_marker x) →
  contains diff_marker l →
  tryMakeMarkdown (join (pre ++ l :: post)) =
    MarkdownString (join (pre ++ fence_open :: post ++ [fence_close])).
Proof.
  intros Hpre Hpost Hl Hno Hc. unfold tryMakeMarkdown.
  rewrite split_join.
  - rewrite findIndex_middle.
    + rewrite splice1_middle. unfold push. now rewrite <- app_assoc.
    + intros y Hy. apply includes_false. auto.
    + now apply includes_spec.
  - now destruct pre.
  - apply Forall_app. split; [exact Hpre|]. now constructor.
Qed.

(** X8. When a message is reformatted, the markup has one line more
    than the message: split into lines again, it is the lines of the
    message with the first line that contains [+ actual] replaced by the
    opening fence, and the closing fence as a new last line. *)
Theorem tryMakeMarkdown_lines (m v : string) :
  tryMakeMarkdown m = MarkdownString v →
  ∃ pre l post,
    split m = pre ++ l :: post
    ∧ (∀ x, x ∈ pre → ¬ contains diff_marker x)
    ∧ contains diff_marker l
    ∧ split v = pre ++ fence_open :: post ++ [fence_close]
    ∧ length (split v) = S (length (split m)).
Proof.
  intros Hv.
  destruct (marker_line_or_none m) as [Hyes|Hno];
    [|rewrite tryMakeMarkdown_no_marker in Hv by exact Hno; discriminate].
  destruct (tryMakeMarkdown_marker m Hyes) as (pre & l & post & Hsplit & Hpre & Hl & Hmd).
  rewrite Hmd in Hv. injection Hv as <-.
  pose proof (split_lines_no_newline m) as Hall. rewrite Hsplit in Hall.
  apply Forall_app in Hall as [Hall1 Hall2]. apply Forall_cons in Hall2 as [_ Hall2].
  assert (split (join (pre ++ fence_open :: post ++ [fence_close]))
          = pre ++ fence_open :: post ++ [fence_close]) as Hround.
  { apply split_join; [now destruct pre|].
    apply Forall_app. split; [exact Hall1|]. constructor; [reflexivity|].
    apply Forall_app. split; [exact Hall2|]. now constructor. }
  exists pre, l, post. repeat split; try assumption.
  rewrite Hround, Hsplit, !length_app. simpl. rewrite length_app. simpl. lia.
Qed.

(** X9. The text of the line that carries [+ actual] does not
    reach the markup: two messages that differ only in that line, each
    with the marker on it, are formatted to the same markup. *)
Theorem marker_line_text_is_dropped (pre post : list string) (l l' : string) :
  Forall no_newline pre → Forall no_newline post →
  no_newline l → no_newline l' →
  (∀ x, x ∈ pre → ¬ contains diff_marker x) →
  contains diff_marker l → contains diff_marker l' →
  tryMakeMarkdown (join (pre ++ l :: post)) = tryMakeMarkdown (join (pre ++ l' :: post))
  ∧ tryMakeMarkdown (join (pre ++ l :: post)) =
      MarkdownString (join (pre ++ fence_open :: post ++ [fence_close])).
Proof.
  intros Hpre Hpost Hl Hl' Hno Hc Hc'.
  rewrite !tryMakeMarkdown_of_lines by assumption. done.
Qed.

End FormatterLines.

(** ** Location resolver: which occurrence, which query *)

Section ResolverMatch.
Import LocationRe LocationReFacts JsStringFacts.

Lemma string_forall_app (p : ascii → bool) (a b : string) :
  string_forall p (a +:+ b) = string_forall p a && string_forall p b.
Proof.
  induction a as [|c a IH]; [reflexivity|].
  rewrite append_cons. simpl. now rewrite IH, andb_assoc.
Qed.

Lemma length_append (a b : string) :
  String.length (a +:+ b) = String.length a + String.length b.
Proof.
  induction a as [|c a IH]; [reflexivity|]. rewrite append_cons. simpl. now rewrite IH.
Qed.

Lemma append_inj_length (a b a' b' : string) :
  a +:+ b = a' +:+ b' → String.length a = String.length a' → a = a' ∧ b = b'.
Proof.
  revert a'. induction a as [|c a IH]; intros [|c' a'] Heq Hlen; try discriminate.
  - now rewrite !append_nil_l in Heq.
  - rewrite !append_cons in Heq. injection Heq as -> Heq.
    destruct (IH a' Heq) as [-> ->]; [simpl in Hlen; lia | done].
Qed.

(** A greedy quantifier settles for the longest run after which the rest
    of the pattern still matches. *)
Lemma class_plus_greedy {R} cls (s : string) (k : string → string → option R) x :
  class_plus cls s k = Some x →
  ∃ m rest,
    s = m +:+ rest ∧ run_of cls m ∧ k m rest = Some x ∧
    ∀ m' rest', s = m' +:+ rest' → run_of cls m' →
      String.length m < String.length m' → k m' rest' = None.
Proof.
  revert k. induction s as [|c r IH]; intros k; simpl; [discriminate|].
  destruct (cls c) eqn:Hc; [|discriminate].
  destruct (class_plus cls r _) as [y|] eqn:Hrec.
  - intros [= ->]. apply IH in Hrec as (m & rest & -> & [Hne Hm] & Hk & Hmax).
    exists (String c m), rest. split; [reflexivity|]. split.
    { split; [discriminate|]. simpl. now rewrite Hc. }
    split; [exact Hk|].
    intros [|c' m'] rest' Hs [Hne' Hm'] Hlen; [done|].
    rewrite !append_cons in Hs. injection Hs as <- Hs. simpl in Hlen, Hm'.
    apply andb_true_iff in Hm' as [_ Hm'].
    apply (Hmax m' rest' Hs); [|lia]. split; [|exact Hm'].
    intros ->. simpl in Hlen. lia.
  - intros Hk. exists (String c ""), r. split; [reflexivity|]. split.
    { split; [discriminate|]. simpl. now rewrite Hc. }
    split; [exact Hk|].
    intros [|c' m'] rest' Hs [Hne' Hm'] Hlen; [done|].
    rewrite !append_cons in Hs. injection Hs as <- Hs.
    simpl in Hlen, Hm'. apply andb_true_iff in Hm' as [_ Hm'].
    destruct (k (String c m') rest') as [z|] eqn:Hz; [|reflexivity].
    assert (is_Some (class_plus cls r (λ m0 rest0, k (String c m0) rest0))) as [w Hw].
    { eapply (class_plus_complete cls r _ m' rest'); [exact Hs| |eauto].
      split; [|exact Hm']. intros ->. simpl in Hlen. lia. }
    congruence.
Qed.

(** At one position, the file URI captured is the longest one the pattern
    allows, and the column takes every digit there is. *)
Lemma match_here_greedy (s fileUri line col : string) :
  match_here s = Some (fileUri, line, col) →
  ∃ post,
    s = fileUri +:+ ":" +:+ line +:+ ":" +:+ col +:+ post
    ∧ (∀ d rest, post = String d rest → is_digit d = false)
    ∧ ∀ u' l' c', pattern_at s u' l' c' → String.length u' ≤ String.length fileUri.
Proof.
  unfold match_here. intros H.
  apply literal_spec in H as (s1 & -> & H).
  apply class_plus_greedy in H as (path & s2 & -> & Hpath & H & Hlongest).
  apply colon_spec in H as (s3 & -> & H).
  apply class_plus_sound in H as (l & s4 & -> & Hl & H).
  apply colon_spec in H as (s5 & -> & H).
  apply class_plus_greedy in H as (c & post & -> & Hc & H & Hdigits).
  injection H as <- <- <-. exists post. split; [now rewrite !append_assoc|]. split.
  - intros d rest -> . destruct (is_digit d) eqn:Hd; [|reflexivity].
    specialize (Hdigits (c +:+ String d "") rest).
    rewrite append_assoc in Hdigits.
    discriminate Hdigits; [reflexivity| |rewrite length_append; simpl; lia].
    split; [destruct c; discriminate|].
    rewrite string_forall_app. simpl. destruct Hc as [_ ->]. now rewrite Hd.
  - intros u' l' c' (path' & post' & -> & Hs & Hpath' & Hl' & Hc').
    rewrite !length_append.
    destruct (decide (String.length path' ≤ String.length path)) as [|Hgt]; [lia|].
    exfalso. rewrite !append_assoc in Hs. apply String.app_inj in Hs.
    specialize (Hlongest path' _ Hs Hpath' ltac:(lia)).
    assert (is_Some (colon (":" +:+ l' +:+ ":" +:+ c' +:+ post')
              (λ s3, digits_plus s3 (λ line s4, colon s4 (λ s5,
                 digits_plus s5 (λ col _, Some (scheme +:+ path', line, col)))))))
      as [z Hz]; [|congruence].
    assert (∀ R (k : string → option R) rest, is_Some (k rest) →
              is_Some (colon (":" +:+ rest) k)) as Hcolon.
    { intros R k rest [y Hy]. exists y. apply colon_spec. eauto. }
    apply Hcolon.
    eapply class_plus_complete; [reflexivity | exact Hl' |].
    apply Hcolon.
    eapply class_plus_complete; [reflexivity | exact Hc' |]. eauto.
Qed.


(** *** The query *)

Lemma digit_value_range (c : ascii) :
  is_digit c = true → (0 ≤ digit_value c ≤ 9)%Z.
Proof.
  unfold is_digit, digit_value. intros H. apply andb_true_iff in H as [H1 H2].
  apply Nat.leb_le in H1, H2. lia.
Qed.

Lemma Number_from_nonneg (acc : Z) (s : string) :
  (0 ≤ acc)%Z → string_forall is_digit s = true → (0 ≤ Number_from acc s)%Z.
Proof.
  revert acc. induction s as [|c s IH]; intros acc Hacc Hs; [exact Hacc|].
  simpl in Hs. apply andb_true_iff in Hs as [Hc Hs]. simpl.
  apply IH; [|exact Hs]. pose proof (digit_value_range c Hc). lia.
Qed.

Lemma Number_nonneg (s : string) : run_of is_digit s → (0 ≤ Number s)%Z.
Proof. intros [_ Hs]. now apply Number_from_nonneg. Qed.

Lemma load_source_map_restrict (h : Host) (fileUri : string) :
  load_source_map (restrict_host h) fileUri =
    match load_source_map h fileUri with
    | Normal sm => Normal (restrict_map sm)
    | Throw e => Throw e
    end.
Proof.
  unfold load_source_map. simpl. now destruct (getContentsFromFile h _).
Qed.

Example query_column_can_be_minus_one :
  tryDeriveLocation
    {| getContentsFromFile := λ _, Normal "";
       new_SourceMapConsumer := λ _ _,
         Normal {| originalPositionFor := λ gp,
                     {| mp_source :=
                          Some (if (gp_column gp =? -1)%Z then "asked for column -1"
                                else "asked for another column");
                        mp_line := Some 1%Z; mp_column := Some 0%Z |} |} |}
    "file:///a.js:1:0"
  = ([], Some (new_Location (Uri_parse "asked for column -1")
                 (OfPosition (new_Position 0 0)))).
Proof. reflexivity. Qed.

(** X11. The resolver asks a source map only about a line that is
    not negative and a column that is at least -1 (the raw column minus
    one): what a source map would answer to any other query has no
    influence on the result or on the warnings. *)
Theorem tryDeriveLocation_query_range (h : Host) (input : string) :
  tryDeriveLocation (restrict_host h) input = tryDeriveLocation h input.
Proof.
  unfold tryDeriveLocation.
  destruct (exec input) as [[[fileUri line] col]|] eqn:Hex; [|reflexivity].
  rewrite load_source_map_restrict.
  destruct (load_source_map h fileUri) as [sm|e]; [|reflexivity].
  apply exec_Some in Hex as (pre & rest & _ & Hm & _).
  apply match_here_sound in Hm as (path & post & _ & _ & _ & Hl & Hc).
  apply Number_nonneg in Hl, Hc. simpl. unfold in_query_range. simpl.
  replace (0 <=? Number line)%Z with true by (symmetry; apply Z.leb_le; lia).
  replace (-1 <=? Number col - 1)%Z with true by (symmetry; apply Z.leb_le; lia).
  reflexivity.
Qed.

End ResolverMatch.

(** ** Pending-index builder: order and content *)

Section BuilderOrder.

Lemma below_unfold (t : VSCodeTest) : below t = traversal (expanded_children t).
Proof. destruct t; reflexivity. Qed.

Lemma traversal_pushes (batch : list VSCodeTest) :
  concat (rev (map below batch)) = concat (map traversal (rev (pushes batch))).
Proof.
  induction batch as [|t batch IH]; [reflexivity|].
  rewrite pushes_cons. simpl map. simpl rev. rewrite concat_app, IH. simpl.
  rewrite app_nil_r, below_unfold.
  destruct t as [c | f ch d | ch].
  - now rewrite app_nil_r.
  - simpl rev. now rewrite map_app, concat_app; simpl; rewrite app_nil_r.
  - simpl rev. now rewrite map_app, concat_app; simpl; rewrite app_nil_r.
Qed.

Lemma drain_order (fuel : nat) (b b' : Builder) :
  drain fuel b = Some b' →
  visited b' = visited b ++ concat (map traversal (queue b)).
Proof.
  revert b. induction fuel as [|fuel IH]; intros b; simpl;
    destruct (queue b) as [|batch rest] eqn:Hq; try discriminate.
  1, 2: intros [= <-]; simpl; now rewrite app_nil_r.
  intros Hdrain. apply IH in Hdrain.
  destruct (fold_visit batch (pop b)) as (Hq1 & _ & Hv1 & _).
  rewrite Hq1, Hv1 in Hdrain. simpl in Hdrain. rewrite Hq in Hdrain. simpl in Hdrain.
  rewrite Hdrain, map_app, concat_app, <- traversal_pushes.
  simpl. unfold traversal. now rewrite <- !app_assoc.
Qed.

Lemma getPendingTestMap_traversal (tests : list VSCodeTest) :
  ∃ b,
    getPendingTestMap_trace tests = Some b
    ∧ visited b = traversal tests
    ∧ set_calls b = direct_cases (traversal tests)
    ∧ refreshed b = direct_files (traversal tests)
    ∧ getPendingTestMap tests = Some (set_all (direct_cases (traversal tests)) ∅).
Proof.
  destruct (getPendingTestMap_trace_total tests) as (b & Hb & _ & _ & Hs & Hr & Hm).
  exists b. split; [exact Hb|].
  assert (visited b = traversal tests) as Hv.
  { unfold getPendingTestMap_trace in Hb. apply drain_order in Hb.
    simpl in Hb. now rewrite app_nil_r in Hb. }
  unfold getPendingTestMap. rewrite Hb. simpl.
  rewrite Hm, Hs, Hr, Hv. auto.
Qed.

(** X12. The builder handles the requested items in the
    order given, then what lies below them, the last container first and
    so on down. The index is the result of setting the cases in that
    order, the refreshed files are the file nodes in that order. *)
Theorem getPendingTestMap_order (tests : list VSCodeTest) :
  ∃ b,
    getPendingTestMap_trace tests = Some b
    ∧ visited b = traversal tests
    ∧ set_calls b = direct_cases (traversal tests)
    ∧ refreshed b = direct_files (traversal tests)
    ∧ getPendingTestMap tests = Some (set_all (direct_cases (traversal tests)) ∅).
Proof. apply getPendingTestMap_traversal. Qed.

Example traversal_last_container_first :
  let leaf (title : string) :=
    CaseNode {| fullLabel := title; tc_uri := Uri_parse "file:///t";
                tc_range := new_Range (new_Position 0 0) (new_Position 0 0) |} in
  direct_cases
    (traversal [OtherNode [leaf "a1"; leaf "a2"]; leaf "top";
                OtherNode [leaf "b1"; OtherNode [leaf "b2"]]])
  = direct_cases [leaf "top"; leaf "b1"; leaf "b2"; leaf "a1"; leaf "a2"].
Proof. reflexivity. Qed.

(** *** What the index holds *)

Lemma elem_of_set_calls (tests : list VSCodeTest) (b : Builder) (c : TestCase) :
  getPendingTestMap_trace tests = Some b →
  c ∈ set_calls b ↔ CaseNode c ∈ concat (map nodes_below tests).
Proof.
  intros Hb.
  destruct (getPendingTestMap_trace_total tests) as (b' & Hb' & _ & Hv & Hs & _).
  rewrite Hb in Hb'. injection Hb' as <-.
  now rewrite Hs, elem_of_direct_cases, Hv.
Qed.

Lemma index_entries_sound (tests : list VSCodeTest) (pending : gmap string TestCase) :
  getPendingTestMap tests = Some pending →
  ∀ title c, pending !! title = Some c →
    fullLabel c = title ∧ CaseNode c ∈ concat (map nodes_below tests).
Proof.
  unfold getPendingTestMap.
  destruct (getPendingTestMap_trace_total tests) as (b & Hb & _ & _ & _ & _ & Hm).
  rewrite Hb. intros [= <-] title c.
  rewrite Hm, set_all_lookup, lookup_empty.
  destruct (last_with_title title (set_calls b)) as [c'|] eqn:Hl; [|discriminate].
  intros [= ->]. apply last_with_title_Some in Hl as [Hin Htitle].
  split; [exact Htitle|]. now apply (elem_of_set_calls tests b c Hb).
Qed.

Lemma index_entries_lookup (tests : list VSCodeTest) (pending : gmap string TestCase) :
  getPendingTestMap tests = Some pending →
  ∀ title, is_Some (pending !! title) ↔
    ∃ c, CaseNode c ∈ concat (map nodes_below tests) ∧ fullLabel c = title.
Proof.
  intros Hpending title. split.
  - intros [c Hl]. destruct (index_entries_sound tests pending Hpending _ _ Hl).
    eauto.
  - revert Hpending. unfold getPendingTestMap.
    destruct (getPendingTestMap_trace_total tests) as (b & Hb & _ & _ & _ & _ & Hm).
    rewrite Hb. intros [= <-] (c & Hin & <-).
    apply (elem_of_set_calls tests b c Hb) in Hin.
    destruct (last_with_title_is_Some _ _ Hin) as [c' Hc'].
    rewrite Hm, set_all_lookup, Hc'. eauto.
Qed.

(** X13. The index holds nothing but cases of the hierarchy, each
    under its own full title, and it has an entry for a title exactly
    when some case of the hierarchy has that title. *)
Theorem index_entries_are_cases (tests : list VSCodeTest)
    (pending : gmap string TestCase) :
  getPendingTestMap tests = Some pending →
  (∀ title c, pending !! title = Some c →
     fullLabel c = title ∧ CaseNode c ∈ concat (map nodes_below tests))
  ∧ (∀ title, is_Some (pending !! title) ↔
       ∃ c, CaseNode c ∈ concat (map nodes_below tests) ∧ fullLabel c = title).
Proof.
  intros Hpending. split.
  - now apply index_entries_sound.
  - now apply index_entries_lookup.
Qed.

(** X14. When no two different cases of the hierarchy share a
    title, nothing is lost: every case is in the index, under its full
    title, as itself. *)
Theorem unique_titles_keep_every_case (tests : list VSCodeTest)
    (pending : gmap string TestCase) :
  getPendingTestMap tests = Some pending →
  (∀ c c', CaseNode c ∈ concat (map nodes_below tests) →
           CaseNode c' ∈ concat (map nodes_below tests) →
           fullLabel c = fullLabel c' → c = c') →
  ∀ c, CaseNode c ∈ concat (map nodes_below tests) → pending !! fullLabel c = Some c.
Proof.
  intros Hpending Huniq c Hc.
  destruct (proj2 (index_entries_lookup tests pending Hpending (fullLabel c)))
    as [c' Hl]; [eauto|].
  destruct (index_entries_sound tests pending Hpending _ _ Hl) as [Htitle Hin].
  now rewrite Hl, (Huniq c' c Hin Hc Htitle).
Qed.

(** *** Children held before the refresh *)

Lemma below_forget_stale (t : VSCodeTest) :
  below (forget_stale t) = map forget_stale (below t).
Proof.
  assert (∀ l, Forall (λ t, below (forget_stale t) = map forget_stale (below t)) l →
               map forget_stale l ++ concat (rev (map below (map forget_stale l)))
               = map forget_stale (l ++ concat (rev (map below l)))) as Hstep.
  { intros l Hl. rewrite map_app. f_equal.
    rewrite concat_map, map_rev. f_equal. f_equal.
    rewrite !map_map. induction Hl as [|x l Hx _ IH]; [reflexivity|].
    simpl. now rewrite Hx, IH. }
  induction t as [c | f ch d IHd | ch IHch] using VSCodeTest_tree_ind;
    [reflexivity | |]; simpl; now apply Hstep.
Qed.

Lemma traversal_forget_stale (tests : list VSCodeTest) :
  traversal (map forget_stale tests) = map forget_stale (traversal tests).
Proof.
  unfold traversal. rewrite map_app. f_equal.
  rewrite concat_map, map_rev. f_equal. f_equal.
  rewrite !map_map. apply map_ext. intros t. apply below_forget_stale.
Qed.

Lemma direct_cases_forget_stale (l : list VSCodeTest) :
  direct_cases (map forget_stale l) = direct_cases l.
Proof.
  induction l as [|t l IH]; [reflexivity|].
  destruct t; simpl; unfold direct_cases in *; simpl; now rewrite IH.
Qed.

(** X15. The index does not depend on the children that a file node
    held before the builder refreshed it: two hierarchies that differ
    only in such children give the same index. *)
Theorem stale_children_are_ignored (tests1 tests2 : list VSCodeTest) :
  map forget_stale tests1 = map forget_stale tests2 →
  getPendingTestMap tests1 = getPendingTestMap tests2.
Proof.
  intros Heq.
  destruct (getPendingTestMap_traversal tests1) as (b1 & _ & _ & _ & _ & ->).
  destruct (getPendingTestMap_traversal tests2) as (b2 & _ & _ & _ & _ & ->).
  rewrite <- (direct_cases_forget_stale (traversal tests1)).
  rewrite <- (direct_cases_forget_stale (traversal tests2)).
  now rewrite <- !traversal_forget_stale, Heq.
Qed.

End BuilderOrder.

(** ** The provider across runs *)

Section ProviderFacts.
Variable h : Host.

Lemma submit_all_cons (p : Provider) (r : Request) (rs : list Request) :
  submit_all h p (r :: rs) =
    ((submit_all h (submit h p r).1 rs).1,
     (submit h p r).2 :: (submit_all h (submit h p r).1 rs).2).
Proof.
  simpl. destruct (submit h p r) as [p1 res]. simpl.
  now destruct (submit_all h p1 rs).
Qed.

(** *** A queue that is not fulfilled *)

Lemma submit_blocked (p : Provider) (r : Request) :
  p_queue p ≠ QueueFulfilled →
  (submit h p r).1 = p ∧ is_fulfilled (submit h p r).2 = false.
Proof.
  intros Hq. unfold submit.
  destruct (root_of_request _); [|done].
  destruct (getPendingTestMap _); [|done].
  now destruct (p_queue p).
Qed.

Lemma submit_all_blocked (p : Provider) (rs : list Request) :
  p_queue p ≠ QueueFulfilled →
  (submit_all h p rs).1 = p
  ∧ Forall (λ res, is_fulfilled res = false) (submit_all h p rs).2.
Proof.
  intros Hq. induction rs as [|r rs [IH1 IH2]]; [now split|].
  rewrite submit_all_cons. destruct (submit_blocked p r Hq) as [Hp Hres].
  rewrite Hp. simpl. split; [exact IH1|]. now constructor.
Qed.

(** X16. The callbacks of [runTests] are chained on one promise with
    no rejection handler. So when a launch of the runner fails, the run
    is rejected with the banner already written, and from then on no
    request gets to run: whatever is requested later, the provider stays
    as it is and no run is fulfilled. The same holds after a run whose
    scan never settles. *)
Theorem queue_stops_after_failed_run (p : Provider) (r : Request) (rs : list Request)
    (folder : string) (pending : gmap string TestCase) :
  p_queue p = QueueFulfilled →
  root_of_request (r_tests r).*1 = Normal folder →
  getPendingTestMap (r_tests r).*2 = Some pending →
  let p1 := (submit h p r).1 in
  (∀ e, r_launch r folder = Throw e →
     (submit h p r).2 = RunRejected e
     ∧ p_queue p1 = QueueRejected e
     ∧ provider_lines p1 = provider_lines p ++ start_banner (r_now r))
  ∧ (∀ inputs,
       r_launch r folder = Normal inputs →
       settled (deliver_all h
                  (scanTestOutput (write_banner (r_now r) (getOutputChannel p).1)
                     new_TestRunOptions pending (r_cancelled r)) inputs) = None →
       (submit h p r).2 = RunPending ∧ p_queue p1 = QueuePending)
  ∧ (p_queue p1 ≠ QueueFulfilled →
     (submit_all h p1 rs).1 = p1
     ∧ Forall (λ res, is_fulfilled res = false) (submit_all h p1 rs).2).
Proof.
  intros Hq Hroot Hpending p1. split; [|split].
  - intros e He. subst p1. unfold submit. rewrite Hroot, Hpending, Hq.
    unfold getOutputChannel, provider_lines.
    destruct (p_outputChannel p) as [ch|]; simpl; rewrite He; simpl;
      rewrite <- ?app_assoc; auto.
  - intros inputs Hin Hnone. subst p1. unfold submit. rewrite Hroot, Hpending, Hq.
    revert Hnone. unfold getOutputChannel.
    destruct (p_outputChannel p) as [ch|]; simpl; rewrite Hin; simpl;
      intros ->; auto.
  - apply submit_all_blocked.
Qed.

(** *** One channel *)

Lemma write_banner_lines (now : string) (output : OutputChannel) :
  lines (write_banner now output) = lines output ++ start_banner now
  ∧ show_calls (write_banner now output) = show_calls output.
Proof. unfold write_banner. simpl. now rewrite <- !app_assoc. Qed.


Lemma after_scan_lines (outcome : TestResultState) (ch : OutputChannel) :
  lines (after_scan outcome ch) = lines ch.
Proof. unfold after_scan. now destruct outcome. Qed.

Lemma getOutputChannel_spec (p : Provider) :
  one_channel p →
  lines (getOutputChannel p).1 = provider_lines p
  ∧ p_outputChannel (getOutputChannel p).2 = Some (getOutputChannel p).1
  ∧ createOutputChannel_calls (getOutputChannel p).2 = 1
  ∧ p_queue (getOutputChannel p).2 = p_queue p.
Proof.
  unfold one_channel, getOutputChannel, provider_lines.
  destruct (p_outputChannel p) as [ch|] eqn:Hch; simpl; intros Hone.
  - now rewrite Hch.
  - rewrite Hone. auto.
Qed.

#[local] Arguments write_banner : simpl never.

Lemma scanTestOutput_outputChannel (out : OutputChannel) (req0 : TestRunOptions)
    (pending : gmap string TestCase) (cancelled : bool) :
  outputChannel (scanTestOutput out req0 pending cancelled) = out.
Proof. now destruct cancelled. Qed.

Lemma submit_one_channel (p : Provider) (r : Request) :
  one_channel p →
  one_channel (submit h p r).1
  ∧ provider_lines p `prefix_of` provider_lines (submit h p r).1
  ∧ createOutputChannel_calls p ≤ createOutputChannel_calls (submit h p r).1.
Proof.
  intros Hone. unfold submit.
  destruct (root_of_request _) as [folder|]; [|done].
  destruct (getPendingTestMap _) as [pending|]; [|done].
  destruct (p_queue p); [|done..].
  destruct (getOutputChannel_spec p Hone) as (Hlines & Hch & Hcalls & _).
  assert (createOutputChannel_calls p ≤ 1) as Hle.
  { unfold one_channel in Hone. destruct (p_outputChannel p); lia. }
  destruct (getOutputChannel p) as [output p']. simpl in Hlines, Hch, Hcalls.
  destruct (write_banner_lines (r_now r) output) as [Hbanner _].
  destruct (r_launch r folder) as [inputs|e].
  - set (st := deliver_all h _ inputs).
    assert (provider_lines p `prefix_of` lines (outputChannel st)) as Hprefix.
    { etrans; [|apply (deliver_all_append_only h)].
      rewrite scanTestOutput_outputChannel, Hbanner, Hlines. now apply prefix_app_r. }
    destruct (settled st) as [outcome|].
    + split; [exact Hcalls|]. split; [|simpl; lia].
      change (provider_lines p `prefix_of` lines (after_scan outcome (outputChannel st))).
      now rewrite after_scan_lines.
    + split; [exact Hcalls|]. split; [exact Hprefix | simpl; lia].
  - split; [exact Hcalls|]. split; [|simpl; lia].
    change (provider_lines p `prefix_of` lines (write_banner (r_now r) output)).
    rewrite Hbanner, Hlines. now apply prefix_app_r.
Qed.

Lemma submit_all_one_channel (p : Provider) (rs : list Request) :
  one_channel p →
  one_channel (submit_all h p rs).1
  ∧ provider_lines p `prefix_of` provider_lines (submit_all h p rs).1
  ∧ createOutputChannel_calls p ≤ createOutputChannel_calls (submit_all h p rs).1.
Proof.
  revert p. induction rs as [|r rs IH]; intros p Hone; [done|].
  rewrite submit_all_cons. simpl.
  destruct (submit_one_channel p r Hone) as (Hone1 & Hpre1 & Hle1).
  destruct (IH _ Hone1) as (Hone2 & Hpre2 & Hle2).
  split; [exact Hone2|]. split; [etrans; eauto | lia].
Qed.

(** X17. However many runs are requested, the provider creates its
    output channel at most once, on the first run that gets to its
    callback, and every later run writes to that same channel after what
    is already there: the lines of the channel only grow. *)
Theorem one_channel_for_all_runs (rs1 rs2 : list Request) :
  let p1 := (submit_all h new_Provider rs1).1 in
  let p2 := (submit_all h p1 rs2).1 in
  createOutputChannel_calls p2 ≤ 1
  ∧ (createOutputChannel_calls p1 = 1 → createOutputChannel_calls p2 = 1)
  ∧ (createOutputChannel_calls p2 = 1 ↔ is_Some (p_outputChannel p2))
  ∧ provider_lines p1 `prefix_of` provider_lines p2.
Proof.
  intros p1 p2.
  destruct (submit_all_one_channel new_Provider rs1 eq_refl) as (Hone1 & _ & _).
  destruct (submit_all_one_channel p1 rs2 Hone1) as (Hone2 & Hpre & Hle).
  fold p1 in Hone1. fold p2 in Hone2, Hpre, Hle.
  unfold one_channel in Hone2.
  assert (createOutputChannel_calls p2 ≤ 1) as Hle2
    by (destruct (p_outputChannel p2); lia).
  split; [exact Hle2|]. split; [lia|]. split; [|exact Hpre].
  destruct (p_outputChannel p2) as [ch|]; split; intros H; eauto.
  - lia.
  - now destruct H.
Qed.

(** *** The root loop *)

Lemma root_above_root (n : nat) (folder : string) :
  root_above (Nat.iter n ChildOf (TestRootItem folder)) = Normal folder.
Proof. induction n as [|n IH]; [reflexivity | exact IH]. Qed.

Lemma root_above_orphan (n : nat) :
  root_above (Nat.iter n ChildOf Orphan) = Throw TypeError.
Proof. induction n as [|n IH]; [reflexivity | exact IH]. Qed.

Lemma lineage_cases (l : Lineage) :
  ∃ n, (∃ folder, l = Nat.iter n ChildOf (TestRootItem folder))
       ∨ l = Nat.iter n ChildOf Orphan.
Proof.
  induction l as [folder | | l [n IH]].
  - exists 0. left. eauto.
  - exists 0. now right.
  - exists (S n). destruct IH as [[folder ->]| ->]; [left; eauto | now right].
Qed.

(** X18. The workspace folder of a run is that of the nearest root at
    or above the first requested item; the other items play no part. A
    request with no items, or whose first item has no root above it, is
    rejected with a [TypeError] before anything else happens: the
    provider is as before, and the requests that follow fare exactly as
    if it had not been made. *)
Theorem root_comes_from_first_item :
  (∀ n folder (item : VSCodeTest) (rest : list (Lineage * VSCodeTest)),
     root_of_request ((Nat.iter n ChildOf (TestRootItem folder), item) :: rest).*1
     = Normal folder)
  ∧ (∀ items, (∃ folder, root_of_request items = Normal folder)
              ∨ root_of_request items = Throw TypeError)
  ∧ (∀ p r rs,
       (r_tests r = [] ∨
        ∃ n item rest, r_tests r = (Nat.iter n ChildOf Orphan, item) :: rest) →
       submit h p r = (p, RunRejected TypeError)
       ∧ submit_all h p (r :: rs) =
           ((submit_all h p rs).1, RunRejected TypeError :: (submit_all h p rs).2)).
Proof.
  split; [|split].
  - intros n folder item rest. simpl. apply root_above_root.
  - intros [|first rest]; [now right|]. simpl.
    destruct (lineage_cases first) as [n [[folder ->]| ->]].
    + left. exists folder. apply root_above_root.
    + right. apply root_above_orphan.
  - intros p r rs Hno.
    assert (submit h p r = (p, RunRejected TypeError)) as Hsub.
    { unfold submit. destruct Hno as [->|(n & item & rest & ->)]; simpl;
        [reflexivity | now rewrite root_above_orphan]. }
    split; [exact Hsub|]. now rewrite submit_all_cons, Hsub.
Qed.

End ProviderFacts.

(** ** Run coordinator: the banner *)

Section CoordinatorBanner.
Variable h : Host.

(** The callback of [submit] is [runTests]. *)
Lemma submit_runs_runTests (p : Provider) (r : Request) (folder : string)
    (inputs : list Input) :
  p_queue p = QueueFulfilled →
  root_of_request (r_tests r).*1 = Normal folder →
  r_launch r folder = Normal inputs →
  ∃ st,
    runTests h (r_now r) (getOutputChannel p).1 (r_tests r).*2 (r_cancelled r) inputs
      = Some st
    ∧ p_outputChannel (submit h p r).1 = Some (outputChannel st)
    ∧ (submit h p r).2 = match settled st with
                         | Some _ => RunFulfilled st
                         | None => RunPending
                         end.
Proof.
  intros Hq Hroot Hlaunch. unfold submit, runTests, getPendingTestMap.
  destruct (getPendingTestMap_trace_total (r_tests r).*2) as (b & -> & _).
  rewrite Hroot, Hq. simpl. destruct (getOutputChannel p) as [output p'].
  rewrite Hlaunch. simpl. fold (write_banner (r_now r) output).
  set (st := deliver_all h _ inputs).
  eexists. split; [reflexivity|].
  destruct (settled st) eqn:Hst; simpl; unfold with_outputChannel;
    rewrite ?Hst; auto.
Qed.

(** X19. Every run first writes the three banner lines after what
    the channel already holds; whatever else it writes comes after them.
    A run that is already cancelled when it starts writes the banner and
    nothing more: it sets no state, attaches no message, leaves the index
    as built, disposes the scanner once and does not show the log. *)
Theorem run_starts_with_banner (now : string) (out : OutputChannel)
    (req_tests : list VSCodeTest) (cancelled : bool) (inputs : list Input) :
  ∃ st rest,
    runTests h now out req_tests cancelled inputs = Some st
    ∧ lines (outputChannel st) = lines out ++ start_banner now ++ rest
    ∧ (cancelled = true →
       rest = [] ∧ req st = new_TestRunOptions
       ∧ show_calls (outputChannel st) = show_calls out
       ∧ dispose_calls st = 1
       ∧ settled st = Some Skipped
       ∧ getPendingTestMap req_tests = Some (tests st)).
Proof.
  unfold runTests, getPendingTestMap.
  destruct (getPendingTestMap_trace_total req_tests) as (b & -> & _). simpl.
  fold (write_banner now out).
  destruct (write_banner_lines now out) as [Hbanner Hshow].
  destruct cancelled.
  - rewrite (deliver_all_unsubscribed h) by reflexivity. simpl.
    eexists _, []. split; [reflexivity|]. simpl.
    split; [now rewrite <- !app_assoc|]. intros _. repeat split.
  - set (st := deliver_all h _ inputs).
    destruct (deliver_all_append_only h
                (scanTestOutput (write_banner now out) new_TestRunOptions (titleMap b) false)
                inputs) as (_ & _ & [rest Hrest] & _).
    fold st in Hrest.
    rewrite scanTestOutput_outputChannel, Hbanner, <- app_assoc in Hrest.
    destruct (settled st) as [outcome|]; eexists _, rest;
      (split; [reflexivity|]); simpl; rewrite ?after_scan_lines;
      (split; [exact Hrest | discriminate]).
Qed.

End CoordinatorBanner.

(** ** Instances of the further conditional statements *)

Lemma sample_pending_keyed : keyed_by_label Sample.pending.
Proof.
  apply (getPendingTestMap_keyed Sample.hierarchy). vm_compute. reflexivity.
Defined.

Lemma index_after_inputs_witness :
  subscribed Sample.idle = true
  ∧ tests (deliver_all Sample.host Sample.idle Sample.scenarioA) !! "suite > caseA" = None.
Proof.
  assert (subscribed Sample.idle = true) as Hsub by reflexivity.
  split; [exact Hsub|].
  exact (index_after_inputs Sample.host Sample.idle Sample.scenarioA
           "suite > caseA" Hsub).
Defined.

Lemma case_accounted_for_witness :
  keyed_by_label Sample.pending
  ∧ setState_count Sample.caseB (deliver_all Sample.host Sample.idle Sample.scenarioA)
    + inflight_count Sample.caseB (deliver_all Sample.host Sample.idle Sample.scenarioA)
    + pending_count Sample.caseB (deliver_all Sample.host Sample.idle Sample.scenarioA)
    = 1.
Proof.
  split; [exact sample_pending_keyed|].
  exact (case_accounted_for Sample.host Sample.channel Sample.pending false
           Sample.scenarioA Sample.caseB sample_pending_keyed).
Defined.

Lemma run_stays_within_index_witness :
  keyed_by_label Sample.pending
  ∧ tests (deliver_all Sample.host Sample.idle Sample.scenarioA) ⊆ Sample.pending.
Proof.
  split; [exact sample_pending_keyed|].
  exact (proj1 (run_stays_within_index Sample.host Sample.channel Sample.pending false
                  Sample.scenarioA sample_pending_keyed)).
Defined.

Lemma completions_commute_witness :
  0 ≤ 0
  ∧ inflight Sample.two_in_flight !! 0 = Some Sample.taskB
  ∧ inflight Sample.two_in_flight !! 1 = Some Sample.taskA
  ∧ setState_calls
      (req (deliver Sample.host
              (deliver Sample.host Sample.two_in_flight (LocationDerived 0))
              (LocationDerived 0)))
    ≡ₚ setState_calls
         (req (deliver Sample.host
                 (deliver Sample.host Sample.two_in_flight (LocationDerived 1))
                 (LocationDerived 0))).
Proof.
  assert (0 ≤ 0) as Hle by lia.
  assert (inflight Sample.two_in_flight !! 0 = Some Sample.taskB) as Hj
    by (vm_compute; reflexivity).
  assert (inflight Sample.two_in_flight !! 1 = Some Sample.taskA) as Hk
    by (vm_compute; reflexivity).
  split; [exact Hle|]. split; [exact Hj|]. split; [exact Hk|].
  pose proof (completions_commute Sample.host Sample.two_in_flight 0 0
                Sample.taskB Sample.taskA Hle Hj Hk) as (_ & _ & _ & _ & H & _).
  exact H.
Defined.

Lemma tryMakeMarkdown_lines_witness :
  tryMakeMarkdown (err Sample.failB) =
    MarkdownString
      ("AssertionError" +:+ String JsString.newline
         ("```diff" +:+ String JsString.newline
            ("- expected: 2" +:+ String JsString.newline "```")))
  ∧ ∃ pre l post,
      JsString.split (err Sample.failB) = pre ++ l :: post
      ∧ (∀ x, x ∈ pre → ¬ contains diff_marker x)
      ∧ contains diff_marker l
      ∧ JsString.split
          ("AssertionError" +:+ String JsString.newline
             ("```diff" +:+ String JsString.newline
                ("- expected: 2" +:+ String JsString.newline "```")))
        = pre ++ fence_open :: post ++ [fence_close]
      ∧ length
          (JsString.split
             ("AssertionError" +:+ String JsString.newline
                ("```diff" +:+ String JsString.newline
                   ("- expected: 2" +:+ String JsString.newline "```"))))
        = S (length (JsString.split (err Sample.failB))).
Proof.
  assert (tryMakeMarkdown (err Sample.failB) =
    MarkdownString
      ("AssertionError" +:+ String JsString.newline
         ("```diff" +:+ String JsString.newline
            ("- expected: 2" +:+ String JsString.newline "```")))) as H
    by (vm_compute; reflexivity).
  split; [exact H|].
  exact (tryMakeMarkdown_lines _ _ H).
Defined.

Lemma marker_line_text_is_dropped_witness :
  Forall no_newline ["AssertionError"] ∧ Forall no_newline ["- expected: 2"]
  ∧ no_newline "+ actual: 1" ∧ no_newline "lost + actual"
  ∧ (∀ x, x ∈ ["AssertionError"] → ¬ contains diff_marker x)
  ∧ contains diff_marker "+ actual: 1" ∧ contains diff_marker "lost + actual"
  ∧ tryMakeMarkdown (JsString.join (["AssertionError"] ++ "+ actual: 1" :: ["- expected: 2"]))
    = tryMakeMarkdown
        (JsString.join (["AssertionError"] ++ "lost + actual" :: ["- expected: 2"])).
Proof.
  assert (Forall no_newline ["AssertionError"]) as H1 by (repeat constructor).
  assert (Forall no_newline ["- expected: 2"]) as H2 by (repeat constructor).
  assert (no_newline "+ actual: 1") as H3 by reflexivity.
  assert (no_newline "lost + actual") as H4 by reflexivity.
  assert (∀ x, x ∈ ["AssertionError"] → ¬ contains diff_marker x) as H5.
  { intros x Hx. apply list_elem_of_singleton in Hx as ->.
    apply JsStringFacts.includes_false. reflexivity. }
  assert (contains diff_marker "+ actual: 1") as H6
    by (apply JsStringFacts.includes_spec; reflexivity).
  assert (contains diff_marker "lost + actual") as H7
    by (apply JsStringFacts.includes_spec; reflexivity).
  repeat (split; [assumption|]).
  exact (proj1 (marker_line_text_is_dropped _ _ _ _ H1 H2 H3 H4 H5 H6 H7)).
Defined.


Lemma index_entries_are_cases_witness :
  getPendingTestMap Sample.hierarchy = Some Sample.pending
  ∧ ∀ title c, Sample.pending !! title = Some c →
      fullLabel c = title ∧ CaseNode c ∈ concat (map nodes_below Sample.hierarchy).
Proof.
  assert (getPendingTestMap Sample.hierarchy = Some Sample.pending) as H
    by (vm_compute; reflexivity).
  split; [exact H|].
  exact (proj1 (index_entries_are_cases Sample.hierarchy Sample.pending H)).
Defined.

Lemma unique_titles_keep_every_case_witness :
  getPendingTestMap Sample.hierarchy = Some Sample.pending
  ∧ (∀ c c', CaseNode c ∈ concat (map nodes_below Sample.hierarchy) →
             CaseNode c' ∈ concat (map nodes_below Sample.hierarchy) →
             fullLabel c = fullLabel c' → c = c')
  ∧ ∀ c, CaseNode c ∈ concat (map nodes_below Sample.hierarchy) →
         Sample.pending !! fullLabel c = Some c.
Proof.
  assert (getPendingTestMap Sample.hierarchy = Some Sample.pending) as H
    by (vm_compute; reflexivity).
  assert (∀ c c', CaseNode c ∈ concat (map nodes_below Sample.hierarchy) →
                  CaseNode c' ∈ concat (map nodes_below Sample.hierarchy) →
                  fullLabel c = fullLabel c' → c = c') as Huniq.
  { intros c c' Hc Hc' Hl. simpl in Hc, Hc'.
    repeat (apply elem_of_cons in Hc as [Hc|Hc]); try discriminate;
      try (now inversion Hc);
      repeat (apply elem_of_cons in Hc' as [Hc'|Hc']); try discriminate;
      try (now inversion Hc');
      injection Hc as ->; injection Hc' as ->; try reflexivity; discriminate. }
  split; [exact H|]. split; [exact Huniq|].
  exact (unique_titles_keep_every_case Sample.hierarchy Sample.pending H Huniq).
Defined.

Lemma stale_children_are_ignored_witness :
  map forget_stale Sample.hierarchy_with_stale_children = map forget_stale Sample.hierarchy
  ∧ getPendingTestMap Sample.hierarchy_with_stale_children
    = getPendingTestMap Sample.hierarchy.
Proof.
  assert (map forget_stale Sample.hierarchy_with_stale_children
          = map forget_stale Sample.hierarchy) as H by reflexivity.
  split; [exact H|].
  exact (stale_children_are_ignored _ _ H).
Defined.

Lemma queue_stops_after_failed_run_witness :
  p_queue new_Provider = QueueFulfilled
  ∧ root_of_request (r_tests Sample.request_launch_fails).*1 = Normal "/workspace"
  ∧ getPendingTestMap (r_tests Sample.request_launch_fails).*2
    = Some (<[fullLabel Sample.caseA := Sample.caseA]> ∅)
  ∧ (submit_all Sample.host
       (submit Sample.host new_Provider Sample.request_launch_fails).1
       [Sample.request_ok; Sample.request_empty]).1
    = (submit Sample.host new_Provider Sample.request_launch_fails).1.
Proof.
  assert (p_queue new_Provider = QueueFulfilled) as Hq by reflexivity.
  assert (root_of_request (r_tests Sample.request_launch_fails).*1 = Normal "/workspace")
    as Hroot by reflexivity.
  assert (getPendingTestMap (r_tests Sample.request_launch_fails).*2
          = Some (<[fullLabel Sample.caseA := Sample.caseA]> ∅)) as Hpending
    by (vm_compute; reflexivity).
  split; [exact Hq|]. split; [exact Hroot|]. split; [exact Hpending|].
  pose proof (queue_stops_after_failed_run Sample.host new_Provider
                Sample.request_launch_fails [Sample.request_ok; Sample.request_empty]
                "/workspace" _ Hq Hroot Hpending) as (_ & _ & Hblocked).
  apply Hblocked. vm_compute. discriminate.
Defined.

(** Two runs, the second after a launch that failed: the first is
    fulfilled, the failed one leaves its banner, the last never starts. *)
Example three_requests :
  let '(p, results) :=
    submit_all Sample.host new_Provider
      [Sample.request_ok; Sample.request_launch_fails; Sample.request_ok] in
  map is_fulfilled results = [true; false; false]
  ∧ results !! 1 = Some (RunRejected "cannot start in /workspace")
  ∧ results !! 2 = Some (RunRejected "cannot start in /workspace")
  ∧ createOutputChannel_calls p = 1
  ∧ provider_lines p =
      [""; "Starting test run at 10:00"; ""; " √ suite > caseA"; " x suite > caseB";
       "file:///a.js:5:3"; ""; "Starting test run at 10:05"; ""].
Proof. vm_compute. repeat split; reflexivity. Qed.

(** ** Diagnostic formatter: the claim *)

Section FormatterSpec.
Import JsString JsStringFacts.

Lemma line_break_append (x : string) : line_break +:+ x = String newline x.
Proof. reflexivity. Qed.

Lemma split_app_newline (b x : string) :
  split (b +:+ String newline x) = split b ++ split x.
Proof.
  induction b as [|c b IH]; [reflexivity|].
  rewrite append_cons, !split_unfold, IH.
  destruct (Ascii.eqb c newline); [reflexivity|].
  pose proof (split_nonempty b). now destruct (split b).
Qed.

Lemma join_middle (pre post : list string) (l : string) :
  join (pre ++ l :: post) = lead pre +:+ l +:+ trail post.
Proof.
  induction pre as [|x pre IH].
  - simpl app. unfold lead. rewrite append_nil_l. destruct post as [|y post].
    + simpl. now rewrite append_nil_r.
    + rewrite join_cons by done. unfold trail. now rewrite line_break_append.
  - simpl app. rewrite join_cons by now destruct pre. rewrite IH.
    unfold lead. destruct pre as [|y pre].
    + change (join [x]) with x.
      now rewrite append_nil_l, append_assoc, line_break_append.
    + rewrite (join_cons x (y :: pre)) by done.
      now rewrite !append_assoc, append_cons, ?append_assoc.
Qed.

Lemma join_snoc (post : list string) (l : string) :
  trail (post ++ [l]) = trail post +:+ line_break +:+ l.
Proof.
  destruct post as [|y post]; [reflexivity|].
  unfold trail. simpl app.
  pose proof (join_middle (y :: post) [] l) as H. simpl app in H.
  rewrite H. unfold lead, trail. now rewrite append_nil_r, !append_assoc.
Qed.

Lemma starts_a_line_lead (pre : list string) : starts_a_line (lead pre).
Proof. destruct pre; [now left | right; eauto]. Qed.

Lemma ends_a_line_trail (post : list string) : ends_a_line (trail post).
Proof. destruct post; [now left | right; eauto]. Qed.

(** The lines of a text are the pieces that [split] gives. *)
Lemma line_of_split (m l : string) : line_of m l ↔ l ∈ split m.
Proof.
  split.
  - intros (before & after & -> & Hl & Hbefore & Hafter).
    assert (l ∈ split (l +:+ after)) as Hin.
    { rewrite (split_append l after Hl).
      destruct Hafter as [->|[a ->]].
      - simpl. rewrite append_nil_r. left.
      - rewrite line_break_append, split_unfold. simpl (Ascii.eqb _ _). cbv iota.
        rewrite append_nil_r. left. }
    destruct Hbefore as [->|[b ->]]; [now rewrite append_nil_l|].
    rewrite append_assoc, line_break_append, split_app_newline.
    apply elem_of_app. now right.
  - intros Hin. apply list_elem_of_split in Hin as (pre & post & Hsplit).
    exists (lead pre), (trail post). split; [|split; [|split]].
    + now rewrite <- join_middle, <- Hsplit, join_split.
    + pose proof (split_lines_no_newline m) as Hall. rewrite Hsplit in Hall.
      apply Forall_app in Hall as [_ Hall]. now apply Forall_cons in Hall as [Hl _].
    + apply starts_a_line_lead.
    + apply ends_a_line_trail.
Qed.

(** A string without a line break that occurs in what precedes a line
    occurs in one of the lines before it. *)
Lemma contains_lead (pat : string) (pre : list string) :
  no_newline pat → pat ≠ "" → Forall no_newline pre →
  contains pat (lead pre) → ∃ x, x ∈ pre ∧ contains pat x.
Proof.
  intros Hpat Hne Hpre Hc. destruct pre as [|y pre].
  { destruct Hc as ([|? ?] & b & Hc); destruct pat; try done; discriminate. }
  apply (contains_line pat _ Hpat) in Hc as (x & Hx & Hc).
  unfold lead in Hx. change line_break with (String newline "") in Hx.
  rewrite split_app_newline in Hx.
  rewrite split_join in Hx by done.
  apply elem_of_app in Hx as [Hx|Hx]; [eauto|].
  apply list_elem_of_singleton in Hx as ->.
  destruct Hc as ([|? ?] & b & Hc); destruct pat; try done; discriminate.
Qed.

(** C4. [tryMakeMarkdown m] is the message itself, as plain text, exactly
    when no line of [m] contains [+ actual]. Some line contains it exactly
    when the message is some text, then a line with the marker that is the
    first such line, then some text, and the result is markup made of the
    same text before, the opening diff fence in place of that line, the
    same text after, and the closing fence on a new last line. *)
Theorem tryMakeMarkdown_diff_detection (m : string) :
  (tryMakeMarkdown m = PlainText m ↔ ∀ l, line_of m l → ¬ contains "+ actual" l)
  ∧ ((∃ l, line_of m l ∧ contains "+ actual" l) ↔
     ∃ before l after,
       m = before +:+ l +:+ after ∧ within_a_line l
       ∧ starts_a_line before ∧ ends_a_line after
       ∧ ¬ contains "+ actual" before
       ∧ contains "+ actual" l
       ∧ tryMakeMarkdown m =
           MarkdownString
             (before +:+ "```diff" +:+ after +:+ line_break +:+ "```")).
Proof.
  assert ((∃ l, line_of m l ∧ contains "+ actual" l) →
     ∃ before l after,
       m = before +:+ l +:+ after ∧ no_newline l
       ∧ starts_a_line before ∧ ends_a_line after
       ∧ ¬ contains "+ actual" before
       ∧ contains "+ actual" l
       ∧ tryMakeMarkdown m =
           MarkdownString
             (before +:+ "```diff" +:+ after +:+ line_break +:+ "```")) as Hmarkup.
  { intros (l0 & Hl0 & Hc0). apply line_of_split in Hl0.
    destruct (tryMakeMarkdown_marker m) as (pre & l & post & Hsplit & Hpre & Hl & Hmd);
      [eauto|].
    pose proof (split_lines_no_newline m) as Hall. rewrite Hsplit in Hall.
    apply Forall_app in Hall as [Hall1 Hall2]. apply Forall_cons in Hall2 as [Hnl _].
    exists (lead pre), l, (trail post).
    split; [now rewrite <- join_middle, <- Hsplit, join_split|].
    split; [exact Hnl|]. split; [apply starts_a_line_lead|].
    split; [apply ends_a_line_trail|]. split.
    { intros Hc. apply contains_lead in Hc as (x & Hx & Hc); try done.
      now apply (Hpre x). }
    split; [exact Hl|].
    rewrite Hmd. f_equal.
    rewrite (join_middle pre (post ++ [fence_close]) fence_open), join_snoc.
    reflexivity. }
  split; split.
  - intros Hplain l Hl Hc.
    destruct Hmarkup as (before & x & after & _ & _ & _ & _ & _ & _ & Hmd);
      [eauto | congruence].
  - intros Hno. apply tryMakeMarkdown_no_marker. intros l Hl.
    apply Hno. now apply line_of_split.
  - exact Hmarkup.
  - intros (before & l & after & Hm & Hnl & Hb & Ha & _ & Hc & _).
    exists l. split; [|exact Hc]. exists before, after. auto.
Qed.

End FormatterSpec.

(** ** Location resolver: the claim *)

Section ResolverSpec.
Import LocationRe LocationReFacts JsStringFacts.
Variable h : Host.

Lemma is_digit_digit_of (c : ascii) :
  is_digit c = if digit_of c is Some _ then true else false.
Proof. destruct c as [[] [] [] [] [] [] [] []]; reflexivity. Qed.

Lemma dot_not_line_end (c : ascii) : dot c = not_line_end c.
Proof. destruct c as [[] [] [] [] [] [] [] []]; reflexivity. Qed.

Lemma digit_value_digit_of (c : ascii) :
  is_digit c = true → digit_value c = default 0%Z (digit_of c).
Proof. destruct c as [[] [] [] [] [] [] [] []]; intros H; try discriminate H; reflexivity. Qed.

Lemma string_forall_ext (p q : ascii → bool) (s : string) :
  (∀ c, p c = q c) → string_forall p s = string_forall q s.
Proof.
  intros Hpq. induction s as [|c s IH]; [reflexivity|]. simpl. now rewrite Hpq, IH.
Qed.

Lemma run_of_digits (s : string) : run_of is_digit s ↔ decimal_digits s.
Proof.
  unfold run_of, decimal_digits.
  now rewrite (string_forall_ext _ _ s is_digit_digit_of).
Qed.

Lemma pattern_at_occurrence (rest fileUri line col : string) :
  pattern_at rest fileUri line col ↔ location_occurrence rest fileUri line col.
Proof.
  unfold pattern_at, location_occurrence.
  split.
  - intros (path & post & Hu & Hrest & [Hne Hpath] & Hl & Hc). exists path, post.
    rewrite (string_forall_ext _ _ path dot_not_line_end) in Hpath.
    apply run_of_digits in Hl. apply run_of_digits in Hc. tauto.
  - intros (path & post & Hu & Hrest & Hne & Hpath & Hl & Hc). exists path, post.
    rewrite <- (string_forall_ext _ _ path dot_not_line_end) in Hpath.
    apply run_of_digits in Hl. apply run_of_digits in Hc. unfold run_of at 1. tauto.
Qed.

Lemma Number_from_decimal (acc : Z) (s : string) :
  string_forall is_digit s = true →
  Number_from acc s = (acc * 10 ^ Z.of_nat (String.length s) + decimal s)%Z.
Proof.
  revert acc. induction s as [|c s IH]; intros acc Hs.
  - simpl. lia.
  - simpl in Hs. apply andb_true_iff in Hs as [Hc Hs].
    cbn [Number_from decimal String.length]. rewrite (IH _ Hs).
    rewrite (digit_value_digit_of c Hc), Nat2Z.inj_succ, Z.pow_succ_r by lia. lia.
Qed.

Lemma Number_decimal (s : string) : run_of is_digit s → Number s = decimal s.
Proof.
  intros [_ Hs]. unfold Number. rewrite (Number_from_decimal 0 s Hs). lia.
Qed.

(** C3. [tryDeriveLocation] yields nothing when the pattern
    [<file-URI>:<line>:<column>] occurs nowhere in the input. When it
    occurs somewhere, the resolver goes by one occurrence: the leftmost,
    with the longest file URI possible there and with every digit of the
    column. If fetching or parsing the [.map] sibling of that file URI
    throws, the result is nothing and the only effect is one console
    warning. If the map loads, it is asked for the position at the line
    and at the column minus one that the two numbers denote; the result
    is nothing when the source, the line or the column that comes back is
    null, and otherwise it is the location at the returned source, at the
    returned line minus one and the returned column. *)
Theorem tryDeriveLocation_spec (input : string) :
  ((¬ ∃ pre rest fileUri line col,
        input = pre +:+ rest ∧ location_occurrence rest fileUri line col) →
   tryDeriveLocation h input = ([], None))
  ∧ ((∃ pre rest fileUri line col,
        input = pre +:+ rest ∧ location_occurrence rest fileUri line col) →
     ∃ pre fileUri line col post,
       input = pre +:+ fileUri +:+ ":" +:+ line +:+ ":" +:+ col +:+ post
       ∧ location_occurrence (fileUri +:+ ":" +:+ line +:+ ":" +:+ col +:+ post)
           fileUri line col
       ∧ (∀ d rest, post = String d rest → digit_of d = None)
       ∧ (∀ pre' rest' u' l' c',
            input = pre' +:+ rest' → location_occurrence rest' u' l' c' →
            String.length pre ≤ String.length pre'
            ∧ (String.length pre' = String.length pre →
               String.length u' ≤ String.length fileUri))
       ∧ (∀ e,
            (getContentsFromFile h (Uri_parse (fileUri +:+ ".map")) = Throw e
             ∨ ∃ contents,
                 getContentsFromFile h (Uri_parse (fileUri +:+ ".map")) = Normal contents ∧
                 new_SourceMapConsumer h contents (fileUri +:+ ".map") = Throw e) →
            tryDeriveLocation h input =
              (["Error parsing sourcemap for " +:+ fileUri +:+ ": " +:+ e], None))
       ∧ (∀ contents sourceMap,
            getContentsFromFile h (Uri_parse (fileUri +:+ ".map")) = Normal contents →
            new_SourceMapConsumer h contents (fileUri +:+ ".map") = Normal sourceMap →
            let position :=
              originalPositionFor sourceMap
                {| gp_column := decimal col - 1; gp_line := decimal line |} in
            ((mp_source position = None ∨ mp_line position = None
              ∨ mp_column position = None) →
             tryDeriveLocation h input = ([], None))
            ∧ (∀ psource pline pcolumn,
                 mp_source position = Some psource →
                 mp_line position = Some pline →
                 mp_column position = Some pcolumn →
                 tryDeriveLocation h input =
                   ([], Some (new_Location (Uri_parse psource)
                                (OfPosition (new_Position (pline - 1) pcolumn))))))).
Proof.
  assert ((∃ pre rest fileUri line col,
             input = pre +:+ rest ∧ location_occurrence rest fileUri line col)
          ↔ has_location_pattern input) as Hocc.
  { unfold has_location_pattern.
    split; intros (pre & rest & u & l & c & Hs & Hp); exists pre, rest, u, l, c;
      (split; [exact Hs|]); now apply pattern_at_occurrence. }
  split.
  - rewrite Hocc. intros Hno. apply exec_None in Hno.
    unfold tryDeriveLocation. now rewrite Hno.
  - rewrite Hocc. intros Hyes.
    destruct (exec input) as [[[fileUri line] col]|] eqn:Hex;
      [|now apply exec_None in Hex].
    destruct (exec_Some _ _ Hex) as (pre & rest & -> & Hm & Hleft).
    destruct (match_here_greedy _ _ _ _ Hm) as (post & Hrest & Hpost & Hlong).
    pose proof (match_here_sound _ _ _ _ Hm) as Hpat.
    assert (Number line = decimal line ∧ Number col = decimal col) as [Hline Hcol].
    { destruct Hpat as (path & post' & _ & _ & _ & Hl & Hc).
      split; now apply Number_decimal. }
    exists pre, fileUri, line, col, post.
    split; [now rewrite Hrest|].
    split; [rewrite <- Hrest; now apply pattern_at_occurrence|].
    split.
    { intros d rest' Hd. specialize (Hpost d rest' Hd).
      rewrite is_digit_digit_of in Hpost. now destruct (digit_of d). }
    split.
    { intros pre' rest' u' l' c' Hs Hp. apply pattern_at_occurrence in Hp.
      assert (String.length pre ≤ String.length pre') as Hle.
      { destruct (decide (String.length pre ≤ String.length pre')) as [|Hgt]; [done|].
        exfalso. destruct (match_here_complete _ _ _ _ Hp) as [z Hz].
        rewrite (Hleft pre' rest' Hs) in Hz by lia. discriminate. }
      split; [exact Hle|]. intros Hlen.
      destruct (append_inj_length _ _ _ _ Hs (eq_sym Hlen)) as [-> ->].
      eapply Hlong, Hp. }
    split.
    { intros e He. apply load_source_map_Throw in He.
      unfold tryDeriveLocation. now rewrite Hex, He. }
    intros contents sourceMap Hget Hnew position.
    assert (load_source_map h fileUri = Normal sourceMap) as Hload.
    { apply load_source_map_Normal. eauto. }
    unfold tryDeriveLocation. rewrite Hex, Hload, Hline, Hcol. fold position. split.
    + intros Hnull.
      destruct (mp_line position), (mp_column position), (mp_source position);
        try reflexivity.
      destruct Hnull as [?|[?|?]]; discriminate.
    + intros psource pline pcolumn -> -> ->. reflexivity.
Qed.

End ResolverSpec.

(** ** Run scanner: a result, once set, is final *)

Section ScannerFinal.
Variable h : Host.

Lemma state_of_Some_count (c : TestCase) (st : Scan) (x : TestResultState * Z) :
  state_of c st = Some x → 1 ≤ setState_count c st.
Proof.
  unfold state_of, setState_count.
  destruct (filter _ (setState_calls (req st))) as [|call calls]; [discriminate|].
  simpl. lia.
Qed.

Lemma state_of_final (st : Scan) (more : list Input) (c : TestCase)
    (x : TestResultState * Z) :
  at_most_once st →
  state_of c st = Some x →
  state_of c (deliver_all h st more) = Some x.
Proof.
  intros Hinv Hx.
  pose proof (state_of_Some_count c st x Hx) as Hone.
  destruct (at_most_once_deliver_all h st more Hinv) as [_ Hle].
  specialize (Hle c).
  destruct (deliver_all_append_only h st more) as ([later Hlater] & _).
  unfold state_of, setState_count in *. rewrite Hlater in Hle |- *.
  rewrite filter_app in Hle |- *. rewrite length_app in Hle.
  destruct (filter _ later) as [|call calls]; [now rewrite app_nil_r|].
  simpl in Hle. lia.
Qed.

(** X2. The state of a case is that of the last [setState] call on it.
    Once a run has given a case a state, nothing the run receives later
    changes it: no later event, location or cancellation gives the case
    another state or another duration. *)
Theorem case_state_is_final (out : OutputChannel) (pending : gmap string TestCase)
    (cancelled : bool) (inputs more : list Input) (c : TestCase)
    (x : TestResultState * Z) :
  keyed_by_label pending →
  state_of c (deliver_all h (scanTestOutput out new_TestRunOptions pending cancelled)
                inputs) = Some x →
  state_of c (deliver_all h (scanTestOutput out new_TestRunOptions pending cancelled)
                (inputs ++ more)) = Some x.
Proof.
  intros Hk Hx. rewrite deliver_all_app. apply state_of_final; [|exact Hx].
  now apply at_most_once_deliver_all, at_most_once_scanTestOutput.
Qed.

End ScannerFinal.

Lemma case_state_is_final_witness :
  keyed_by_label Sample.pending
  ∧ state_of Sample.caseA
      (deliver_all Sample.host
         (scanTestOutput Sample.channel new_TestRunOptions Sample.pending false)
         [Mocha (MochaPass Sample.passA)]) = Some (Passed, 12%Z)
  ∧ state_of Sample.caseA
      (deliver_all Sample.host
         (scanTestOutput Sample.channel new_TestRunOptions Sample.pending false)
         ([Mocha (MochaPass Sample.passA)]
          ++ [Mocha (MochaFail Sample.failA); LocationDerived 0;
              Mocha (MochaPass Sample.passA)])) = Some (Passed, 12%Z).
Proof.
  assert (state_of Sample.caseA
            (deliver_all Sample.host
               (scanTestOutput Sample.channel new_TestRunOptions Sample.pending false)
               [Mocha (MochaPass Sample.passA)]) = Some (Passed, 12%Z)) as Hset
    by (vm_compute; reflexivity).
  split; [exact sample_pending_keyed|]. split; [exact Hset|].
  exact (case_state_is_final Sample.host Sample.channel Sample.pending false
           [Mocha (MochaPass Sample.passA)]
           [Mocha (MochaFail Sample.failA); LocationDerived 0;
            Mocha (MochaPass Sample.passA)]
           Sample.caseA (Passed, 12%Z) sample_pending_keyed Hset).
Defined.
